(** * Connect Four: a shallow embedding of [connect_four.js]

    The JavaScript program keeps one 6x7 grid of numbers (0 = empty,
    1 = human, 2 = machine), scans it for four-in-a-row, scores it with a
    window heuristic, and chooses the machine's column either with a
    best-first search (the ['easy'] branch) or with a depth-limited minimax
    that mutates the grid in place and undoes every write (the other branch).

    Conventions of the embedding:
    - a board is a list of rows, each a list of cells; [cellAt] is the read
      [board[r][c]], with [None] for JavaScript's [undefined];
    - row and column indices are [Z], because the source computes them with
      negative steps and tests them against the bounds itself;
    - the numbers the heuristic produces are small integers, modelled in [Z];
      minimax mixes them with [-Infinity] and [Infinity], modelled by [ext];
    - code that assigns to the board takes the board and returns the new one. *)

From Stdlib Require Import String ZArith List Bool Lia.
Import ListNotations.
Open Scope Z_scope.

(** ** Cells and boards *)

(** [const EMPTY = 0; const PLAYER = 1; const OPPONENT = 2;] *)
Inductive Cell : Type := EMPTY | PLAYER | OPPONENT.

Definition Cell_eqb (a b : Cell) : bool :=
  match a, b with
  | EMPTY, EMPTY | PLAYER, PLAYER | OPPONENT, OPPONENT => true
  | _, _ => false
  end.

Definition Board : Type := list (list Cell).

Definition ROWS : Z := 6.
Definition COLS : Z := 7.
Definition MAX_DEPTH : nat := 4.

(** [0, 1, ..., n-1]: the index sequence of [for (let i = 0; i < n; i++)]. *)
Definition upto (n : Z) : list Z := map Z.of_nat (seq 0 (Z.to_nat n)).

(** [n-1, ..., 1, 0]: the index sequence of [for (let i = n - 1; i >= 0; i--)]. *)
Definition downfrom (n : Z) : list Z := rev (upto n).

(** [Array.from({ length: ROWS }, () => Array(COLS).fill(EMPTY))] *)
Definition emptyBoard : Board :=
  repeat (repeat EMPTY (Z.to_nat COLS)) (Z.to_nat ROWS).

(** The read [board[r][c]]; [None] stands for [undefined]. *)
Definition cellAt (board : Board) (r c : Z) : option Cell :=
  if (r <? 0) || (c <? 0) then None
  else match nth_error board (Z.to_nat r) with
       | Some cells => nth_error cells (Z.to_nat c)
       | None => None
       end.

(** The test [board[r][c] === v]. *)
Definition cell_is (x : option Cell) (v : Cell) : bool :=
  match x with
  | Some c => Cell_eqb c v
  | None => false
  end.

Fixpoint setNth {A : Type} (n : nat) (v : A) (l : list A) : list A :=
  match l, n with
  | [], _ => []
  | _ :: t, O => v :: t
  | h :: t, S n' => h :: setNth n' v t
  end.

(** The assignment [board[r][c] = v]. The source assigns only to a cell it has
    just read as [EMPTY], so the index is always inside the grid; outside it
    this function leaves the board alone. *)
Definition setCell (board : Board) (r c : Z) (v : Cell) : Board :=
  if (r <? 0) || (c <? 0) then board
  else match nth_error board (Z.to_nat r) with
       | Some cells => setNth (Z.to_nat r) (setNth (Z.to_nat c) v cells) board
       | None => board
       end.

(** The shape every board of the program has: [ROWS] rows of [COLS] cells. *)
Definition wf_board (board : Board) : Prop :=
  length board = Z.to_nat ROWS /\
  Forall (fun cells => length cells = Z.to_nat COLS) board.

(** ** Win detection *)

(** [checkDirection(board, row, col, player, dRow, dCol)] *)
Definition checkDirection (board : Board) (row col : Z) (player : Cell)
    (dRow dCol : Z) : bool :=
  forallb (fun i =>
             let r := row + i * dRow in
             let c := col + i * dCol in
             negb ((r <? 0) || (r >=? ROWS) || (c <? 0) || (c >=? COLS)
                   || negb (cell_is (cellAt board r c) player)))
          (upto 4).

(** [checkWin(board, player)]: [Some player] for the returned side, [None]
    for [null]. *)
Definition checkWin (board : Board) (player : Cell) : option Cell :=
  if existsb (fun row =>
       existsb (fun col =>
          cell_is (cellAt board row col) player &&
          (checkDirection board row col player 1 0 ||
           checkDirection board row col player 0 1 ||
           checkDirection board row col player 1 1 ||
           checkDirection board row col player 1 (-1)))
         (upto COLS))
       (upto ROWS)
  then Some player else None.

(** Truthiness of a value returned by [checkWin]: [null] and [0] are falsy. *)
Definition truthy (x : option Cell) : bool :=
  match x with
  | Some EMPTY | None => false
  | Some _ => true
  end.

(** [isBoardFull(board)]: [board[0].every(cell => cell !== EMPTY)]. Every board
    of the program has a row 0; for a board without rows the answer is
    [true]. *)
Definition isBoardFull (board : Board) : bool :=
  match nth_error board 0 with
  | Some cells => forallb (fun cell => negb (Cell_eqb cell EMPTY)) cells
  | None => true
  end.

(** ** The window heuristic of the minimax branch *)

Record Counts : Type := mkCounts
  { countPlayer : Z; countOpponent : Z; emptyCount : Z }.

Definition directions : list (Z * Z) := [(0, 1); (1, 0); (1, 1); (1, -1)].

(** [player === PLAYER ? OPPONENT : PLAYER] *)
Definition rival (player : Cell) : Cell :=
  if Cell_eqb player PLAYER then OPPONENT else PLAYER.

(** The body of the inner loop of [evaluateLine] at window position [i]. *)
Definition countStep (board : Board) (row col : Z) (player : Cell)
    (d : Z * Z) (cnt : Counts) (i : Z) : Counts :=
  let r := row + i * fst d in
  let c := col + i * snd d in
  if (r >=? 0) && (r <? ROWS) && (c >=? 0) && (c <? COLS) then
    if cell_is (cellAt board r c) player then
      mkCounts (countPlayer cnt + 1) (countOpponent cnt) (emptyCount cnt)
    else if cell_is (cellAt board r c) (rival player) then
      mkCounts (countPlayer cnt) (countOpponent cnt + 1) (emptyCount cnt)
    else
      mkCounts (countPlayer cnt) (countOpponent cnt) (emptyCount cnt + 1)
  else cnt.

Definition windowCounts (board : Board) (row col : Z) (player : Cell)
    (d : Z * Z) : Counts :=
  fold_left (countStep board row col player d) (upto 4) (mkCounts 0 0 0).

(** The two [if] chains that follow the counting loop, as an update of
    [score]. *)
Definition scoreWindow (score : Z) (cnt : Counts) : Z :=
  let score :=
    if (countPlayer cnt =? 3) && (emptyCount cnt =? 1) then score + 100
    else if (countOpponent cnt =? 3) && (emptyCount cnt =? 1) then score - 100
    else if (countPlayer cnt =? 2) && (emptyCount cnt =? 2) then score + 10
    else if (countOpponent cnt =? 2) && (emptyCount cnt =? 2) then score - 10
    else score in
  if (countPlayer cnt =? 1) && (emptyCount cnt =? 3) then score + 5
  else if (countOpponent cnt =? 1) && (emptyCount cnt =? 3) then score - 5
  else score.

(** [evaluateLine(board, row, col, player)] *)
Definition evaluateLine (board : Board) (row col : Z) (player : Cell) : Z :=
  fold_left (fun score d => scoreWindow score (windowCounts board row col player d))
            directions 0.

(** The body of the inner loop of [heuristic]. *)
Definition heuristicCell (board : Board) (row : Z) (score col : Z) : Z :=
  if cell_is (cellAt board row col) OPPONENT then
    score + evaluateLine board row col OPPONENT
  else if cell_is (cellAt board row col) PLAYER then
    score - evaluateLine board row col PLAYER
  else score.

(** [heuristic(board)] *)
Definition heuristic (board : Board) : Z :=
  fold_left (fun score row => fold_left (heuristicCell board row) (upto COLS) score)
            (upto ROWS) 0.

(** ** Numbers with the two infinities *)

(** The values minimax compares: heuristic scores, [-Infinity], [Infinity]. *)
Inductive ext : Type := NegInf | Fin (z : Z) | PosInf.

(** [a <= b] *)
Definition ext_leb (a b : ext) : bool :=
  match a, b with
  | NegInf, _ => true
  | _, PosInf => true
  | Fin x, Fin y => x <=? y
  | _, _ => false
  end.

(** [a > b] *)
Definition ext_gtb (a b : ext) : bool := negb (ext_leb a b).

(** [Math.max(a, b)] *)
Definition ext_max (a b : ext) : ext := if ext_leb a b then b else a.

(** [Math.min(a, b)] *)
Definition ext_min (a b : ext) : ext := if ext_leb a b then a else b.

(** ** Minimax with the alpha-beta test *)

(** The variables a layer of [minimax] updates while it loops: the board,
    the running [maxEval] or [minEval], [alpha] and [beta]. *)
Record Layer : Type := mkLayer
  { l_board : Board; l_eval : ext; l_alpha : ext; l_beta : ext }.

(** A call [minimax(board, depth - 1, alpha, beta, isMaximizingPlayer)] of the
    layer below: the value returned and the board as the call leaves it. *)
Definition Below : Type := Board -> ext -> ext -> bool -> ext * Board.

(** The inner loop [for (let row = ROWS - 1; row >= 0; row--)] of the
    maximizing layer, from the rows still to visit. The only [break] is the
    one guarded by [beta <= alpha]; it leaves this loop. *)
Fixpoint maxRows (below : Below) (col : Z) (rows : list Z) (st : Layer) : Layer :=
  match rows with
  | [] => st
  | row :: rows' =>
      if cell_is (cellAt (l_board st) row col) EMPTY then
        let placed := setCell (l_board st) row col OPPONENT in
        let (eval, back) := below placed (l_alpha st) (l_beta st) false in
        let undone := setCell back row col EMPTY in
        let maxEval := ext_max (l_eval st) eval in
        let alpha := ext_max (l_alpha st) eval in
        let st' := mkLayer undone maxEval alpha (l_beta st) in
        if ext_leb (l_beta st) alpha then st'
        else maxRows below col rows' st'
      else maxRows below col rows' st
  end.

(** The same loop of the minimizing layer. *)
Fixpoint minRows (below : Below) (col : Z) (rows : list Z) (st : Layer) : Layer :=
  match rows with
  | [] => st
  | row :: rows' =>
      if cell_is (cellAt (l_board st) row col) EMPTY then
        let placed := setCell (l_board st) row col PLAYER in
        let (eval, back) := below placed (l_alpha st) (l_beta st) true in
        let undone := setCell back row col EMPTY in
        let minEval := ext_min (l_eval st) eval in
        let beta := ext_min (l_beta st) eval in
        let st' := mkLayer undone minEval (l_alpha st) beta in
        if ext_leb beta (l_alpha st) then st'
        else minRows below col rows' st'
      else minRows below col rows' st
  end.

(** The outer loop [for (let col = 0; col < COLS; col++)] of either layer. *)
Definition maxCols (below : Below) (st : Layer) : Layer :=
  fold_left (fun st col => maxRows below col (downfrom ROWS) st) (upto COLS) st.

Definition minCols (below : Below) (st : Layer) : Layer :=
  fold_left (fun st col => minRows below col (downfrom ROWS) st) (upto COLS) st.

(** The test that ends the recursion, apart from [depth === 0]. *)
Definition gameOver (board : Board) : bool :=
  truthy (checkWin board PLAYER) || truthy (checkWin board OPPONENT)
  || isBoardFull board.

(** [minimax(board, depth, alpha, beta, isMaximizingPlayer)]. The depth is a
    natural number: the program starts it at [MAX_DEPTH] and only ever
    subtracts one. The result pairs the returned value with the board as the
    call leaves it. *)
Fixpoint minimax (depth : nat) (board : Board) (alpha beta : ext)
    (isMaximizingPlayer : bool) : ext * Board :=
  match depth with
  | O => (Fin (heuristic board), board)
  | S depth' =>
      if gameOver board then (Fin (heuristic board), board)
      else if isMaximizingPlayer then
        let st := maxCols (minimax depth') (mkLayer board NegInf alpha beta) in
        (l_eval st, l_board st)
      else
        let st := minCols (minimax depth') (mkLayer board PosInf alpha beta) in
        (l_eval st, l_board st)
  end.

(** ** The call log of minimax

    The same code with one addition: every call of [minimax] is recorded, in
    the order the calls are made, with the arguments it received.
    [minimaxLog_erase] shows that dropping the log gives [minimax] back. *)

Record Call : Type := mkCall
  { c_board : Board; c_depth : nat; c_alpha : ext; c_beta : ext; c_max : bool }.

Definition BelowLog : Type := Board -> ext -> ext -> bool -> ext * Board * list Call.

Fixpoint maxRowsLog (below : BelowLog) (col : Z) (rows : list Z)
    (st : Layer) (log : list Call) : Layer * list Call :=
  match rows with
  | [] => (st, log)
  | row :: rows' =>
      if cell_is (cellAt (l_board st) row col) EMPTY then
        let placed := setCell (l_board st) row col OPPONENT in
        let '(eval, back, calls) := below placed (l_alpha st) (l_beta st) false in
        let undone := setCell back row col EMPTY in
        let maxEval := ext_max (l_eval st) eval in
        let alpha := ext_max (l_alpha st) eval in
        let st' := mkLayer undone maxEval alpha (l_beta st) in
        if ext_leb (l_beta st) alpha then (st', log ++ calls)
        else maxRowsLog below col rows' st' (log ++ calls)
      else maxRowsLog below col rows' st log
  end.

Fixpoint minRowsLog (below : BelowLog) (col : Z) (rows : list Z)
    (st : Layer) (log : list Call) : Layer * list Call :=
  match rows with
  | [] => (st, log)
  | row :: rows' =>
      if cell_is (cellAt (l_board st) row col) EMPTY then
        let placed := setCell (l_board st) row col PLAYER in
        let '(eval, back, calls) := below placed (l_alpha st) (l_beta st) true in
        let undone := setCell back row col EMPTY in
        let minEval := ext_min (l_eval st) eval in
        let beta := ext_min (l_beta st) eval in
        let st' := mkLayer undone minEval (l_alpha st) beta in
        if ext_leb beta (l_alpha st) then (st', log ++ calls)
        else minRowsLog below col rows' st' (log ++ calls)
      else minRowsLog below col rows' st log
  end.

Definition maxColsLog (below : BelowLog) (st : Layer) (log : list Call)
    : Layer * list Call :=
  fold_left (fun sl col => maxRowsLog below col (downfrom ROWS) (fst sl) (snd sl))
            (upto COLS) (st, log).

Definition minColsLog (below : BelowLog) (st : Layer) (log : list Call)
    : Layer * list Call :=
  fold_left (fun sl col => minRowsLog below col (downfrom ROWS) (fst sl) (snd sl))
            (upto COLS) (st, log).

Fixpoint minimaxLog (depth : nat) (board : Board) (alpha beta : ext)
    (isMaximizingPlayer : bool) : ext * Board * list Call :=
  let this := mkCall board depth alpha beta isMaximizingPlayer in
  match depth with
  | O => (Fin (heuristic board), board, [this])
  | S depth' =>
      if gameOver board then (Fin (heuristic board), board, [this])
      else if isMaximizingPlayer then
        let (st, log) :=
          maxColsLog (minimaxLog depth') (mkLayer board NegInf alpha beta) [this] in
        (l_eval st, l_board st, log)
      else
        let (st, log) :=
          minColsLog (minimaxLog depth') (mkLayer board PosInf alpha beta) [this] in
        (l_eval st, l_board st, log)
  end.

(** The boards handed to the calls of the layer directly below a call of
    depth [depth]: the hypothetical placements that layer tried, in order. *)
Definition placementsOf (depth : nat) (log : list Call) : list Board :=
  map c_board (filter (fun c => Nat.eqb (S (c_depth c)) depth) log).

(** Gravity: no cell of the grid is occupied while the cell below it is
    [EMPTY]. *)
Definition gravity (board : Board) : bool :=
  forallb (fun col =>
     forallb (fun row =>
        negb (negb (cell_is (cellAt board row col) EMPTY)
              && cell_is (cellAt board (row + 1) col) EMPTY))
       (upto (ROWS - 1)))
    (upto COLS).

(** A column is legal when one of its cells is [EMPTY]. *)
Definition columnHasEmpty (board : Board) (col : Z) : bool :=
  existsb (fun row => cell_is (cellAt board row col) EMPTY) (upto ROWS).

(** The lowest [EMPTY] cell of a column, scanning [rows] in order. *)
Fixpoint lowestEmpty (board : Board) (col : Z) (rows : list Z) : option Z :=
  match rows with
  | [] => None
  | row :: rows' =>
      if cell_is (cellAt board row col) EMPTY then Some row
      else lowestEmpty board col rows'
  end.

(** ** Best-first search of the ['easy'] branch *)

(** How a call ends: with a value, with a thrown error, or not within the
    number of loop iterations the model was given. *)
Inductive JsError : Type := ReferenceError (name : string).

Inductive Completion (A : Type) : Type :=
  | Normal (a : A)
  | Throw (e : JsError)
  | Unfinished.
Arguments Normal {A} a.
Arguments Throw {A} e.
Arguments Unfinished {A}.

(** A search node [{ board, move, g, h, f }]. [n_move = None] is [null];
    [n_h = None] is a node without the property [h] (every successor). *)
Record Node : Type := mkNode
  { n_board : Board; n_move : option Z; n_g : Z; n_h : option Z; n_f : Z }.

Fixpoint cells_eqb (a b : list Cell) : bool :=
  match a, b with
  | [], [] => true
  | x :: a', y :: b' => Cell_eqb x y && cells_eqb a' b'
  | _, _ => false
  end.

(** [JSON.stringify(a) === JSON.stringify(b)] on two boards. *)
Fixpoint Board_eqb (a b : Board) : bool :=
  match a, b with
  | [], [] => true
  | x :: a', y :: b' => cells_eqb x y && Board_eqb a' b'
  | _, _ => false
  end.

(** The inner loop of [generateSuccessors]: the first [EMPTY] cell met ends
    it, after one push. A successor is the pair [{ board, move }]. *)
Fixpoint successorRows (board : Board) (player : Cell) (col : Z) (rows : list Z)
    (successors : list (Board * Z)) : list (Board * Z) :=
  match rows with
  | [] => successors
  | row :: rows' =>
      if cell_is (cellAt board row col) EMPTY then
        successors ++ [(setCell board row col player, col)]
      else successorRows board player col rows' successors
  end.

(** [generateSuccessors(board, player)] *)
Definition generateSuccessors (board : Board) (player : Cell) : list (Board * Z) :=
  fold_left (fun successors col =>
               successorRows board player col (downfrom ROWS) successors)
            (upto COLS) [].

(** [openList.sort((a, b) => a.f - b.f)]: a stable sort by [f]. *)
Fixpoint insertByF (n : Node) (l : list Node) : list Node :=
  match l with
  | [] => [n]
  | m :: l' => if n_f n <? n_f m then n :: m :: l' else m :: insertByF n l'
  end.

Definition sortByF (l : list Node) : list Node :=
  fold_left (fun sorted n => insertByF n sorted) l [].

(** [list.find(node => JSON.stringify(node.board) === JSON.stringify(board))] *)
Definition findBoard (l : list Node) (board : Board) : option Node :=
  find (fun node => Board_eqb (n_board node) board) l.

(** The body of [for (let successor of successors)]: the new [openList]. *)
Definition considerSuccessor (currentNode : Node) (closedList : list Node)
    (openList : list Node) (successor : Board * Z) : list Node :=
  match findBoard closedList (fst successor) with
  | Some _ => openList
  | None =>
      let g := n_g currentNode + 1 in
      let f := g in
      let node := mkNode (fst successor) (Some (snd successor)) g None f in
      match findBoard openList (fst successor) with
      | Some existingNode =>
          if f <? n_f existingNode then openList ++ [node] else openList
      | None => openList ++ [node]
      end
  end.

(** The [while (openList.length > 0)] loop of [aStarSearch]; [fuel] bounds the
    number of iterations. *)
Fixpoint aStarLoop (fuel : nat) (player : Cell) (openList closedList : list Node)
    : Completion (option Node) :=
  match fuel with
  | O => Unfinished
  | S fuel' =>
      match sortByF openList with
      | [] => Normal None
      | currentNode :: openList' =>
          let closedList' := closedList ++ [currentNode] in
          if truthy (checkWin (n_board currentNode) OPPONENT) then
            Normal (Some currentNode)
          else
            aStarLoop fuel' player
              (fold_left (considerSuccessor currentNode closedList')
                         (generateSuccessors (n_board currentNode) player)
                         openList')
              closedList'
      end
  end.

(** What the program needs from outside its own text.
    - [heuristicEasy]: the value bound to the identifier [heuristicEasy],
      which [aStarSearch] calls and no declaration of the program binds:
      [None] when it is unbound;
    - [randomColumn]: the value of [Math.floor(Math.random() * COLS)];
    - [fuel]: the bound on the iterations of the search loop. *)
Record Env : Type := mkEnv
  { heuristicEasy : option (Board -> Z); randomColumn : Z; fuel : nat }.

(** The program as it is written: nothing binds [heuristicEasy]. *)
Definition asWritten (randomColumn : Z) (fuel : nat) : Env :=
  mkEnv None randomColumn fuel.

(** [aStarSearch(board, player)]. Evaluating the call of an unbound
    identifier throws before the start node exists. *)
Definition aStarSearch (env : Env) (board : Board) (player : Cell)
    : Completion (option Node) :=
  match heuristicEasy env with
  | None => Throw (ReferenceError "heuristicEasy")
  | Some h =>
      let startNode := mkNode board None 0 (Some (h board)) (0 + h board) in
      aStarLoop (fuel env) player [startNode] []
  end.

(** ** The same search with the route of every node

    Each node is paired with the columns of the plies, first to last, through
    which the search produced it from the start node. Nothing reads the
    route; [aStarLoopRoute_erase] shows that dropping it gives [aStarLoop]. *)

Definition RNode : Type := (Node * list Z)%type.

Fixpoint insertByFRoute (n : RNode) (l : list RNode) : list RNode :=
  match l with
  | [] => [n]
  | m :: l' =>
      if n_f (fst n) <? n_f (fst m) then n :: m :: l' else m :: insertByFRoute n l'
  end.

Definition sortByFRoute (l : list RNode) : list RNode :=
  fold_left (fun sorted n => insertByFRoute n sorted) l [].

Definition findBoardRoute (l : list RNode) (board : Board) : option RNode :=
  find (fun node => Board_eqb (n_board (fst node)) board) l.

Definition considerSuccessorRoute (currentNode : RNode) (closedList : list RNode)
    (openList : list RNode) (successor : Board * Z) : list RNode :=
  match findBoardRoute closedList (fst successor) with
  | Some _ => openList
  | None =>
      let g := n_g (fst currentNode) + 1 in
      let f := g in
      let node := (mkNode (fst successor) (Some (snd successor)) g None f,
                   snd currentNode ++ [snd successor]) in
      match findBoardRoute openList (fst successor) with
      | Some existingNode =>
          if f <? n_f (fst existingNode) then openList ++ [node] else openList
      | None => openList ++ [node]
      end
  end.

Fixpoint aStarLoopRoute (fuel : nat) (player : Cell)
    (openList closedList : list RNode) : Completion (option RNode) :=
  match fuel with
  | O => Unfinished
  | S fuel' =>
      match sortByFRoute openList with
      | [] => Normal None
      | currentNode :: openList' =>
          let closedList' := closedList ++ [currentNode] in
          if truthy (checkWin (n_board (fst currentNode)) OPPONENT) then
            Normal (Some currentNode)
          else
            aStarLoopRoute fuel' player
              (fold_left (considerSuccessorRoute currentNode closedList')
                         (generateSuccessors (n_board (fst currentNode)) player)
                         openList')
              closedList'
      end
  end.

Definition aStarSearchRoute (env : Env) (board : Board) (player : Cell)
    : Completion (option RNode) :=
  match heuristicEasy env with
  | None => Throw (ReferenceError "heuristicEasy")
  | Some h =>
      let startNode := mkNode board None 0 (Some (h board)) (0 + h board) in
      aStarLoopRoute (fuel env) player [(startNode, [])] []
  end.

Definition eraseRoute (r : Completion (option RNode)) : Completion (option Node) :=
  match r with
  | Normal x => Normal (option_map fst x)
  | Throw e => Throw e
  | Unfinished => Unfinished
  end.

(** ** Choosing and playing a move *)

(** The variables the loop of the minimax branch of [bestMove] updates. *)
Record Best : Type := mkBest
  { b_board : Board; b_bestScore : ext; b_move : Z }.

(** The inner loop of that branch: the first [EMPTY] cell met is tried and
    ends the loop ([break]). *)
Fixpoint bestRows (col : Z) (rows : list Z) (st : Best) : Best :=
  match rows with
  | [] => st
  | row :: rows' =>
      if cell_is (cellAt (b_board st) row col) EMPTY then
        let placed := setCell (b_board st) row col OPPONENT in
        let (score, back) := minimax MAX_DEPTH placed NegInf PosInf false in
        let undone := setCell back row col EMPTY in
        if ext_gtb score (b_bestScore st) then mkBest undone score col
        else mkBest undone (b_bestScore st) (b_move st)
      else bestRows col rows' st
  end.

(** The test [difficulty === 'easy']; [None] is a call without the argument. *)
Definition isEasy (difficulty : option string) : bool :=
  match difficulty with
  | Some s => String.eqb s "easy"
  | None => false
  end.

(** [bestMove(board, difficulty)]. The value returned is [None] for [null];
    the board is returned as the call leaves it. *)
Definition bestMove (env : Env) (board : Board) (difficulty : option string)
    : Completion (option Z * Board) :=
  if isEasy difficulty then
    match aStarSearch env board OPPONENT with
    | Normal (Some result) => Normal (n_move result, board)
    | Normal None => Normal (Some (randomColumn env), board)
    | Throw e => Throw e
    | Unfinished => Unfinished
    end
  else
    let st := fold_left (fun st col => bestRows col (downfrom ROWS) st)
                        (upto COLS) (mkBest board NegInf (-1)) in
    Normal (Some (b_move st), b_board st).

(** The loop of [placePiece]. *)
Fixpoint placeRows (board : Board) (col : Z) (player : Cell) (rows : list Z)
    : Board :=
  match rows with
  | [] => board
  | row :: rows' =>
      if cell_is (cellAt board row col) EMPTY then setCell board row col player
      else placeRows board col player rows'
  end.

(** [placePiece(col, player)] on the program's board. It has no statement
    that throws, so its result is always a board. *)
Definition placePiece (col : Z) (player : Cell) (board : Board) : Board :=
  placeRows board col player (downfrom ROWS).

(** ** One turn of [playGame] *)

Inductive Message : Type :=
  | YouWon | Draw | OpponentPlays (move : option Z) | OpponentWins | InvalidColumn.

(** What a turn writes: [printBoard()] and [console.log]. *)
Inductive Output : Type :=
  | PrintBoard (board : Board)
  | Say (msg : Message).

(** How the callback ends: it calls [playGame()] again or closes the
    interface. *)
Inductive Next : Type := Prompt | Closed.

(** The part of the callback that follows [placePiece(column, PLAYER)], run
    on the board that call left. [bestMove(board)] is called without a
    difficulty. A [null] move indexes no cell, so [placePiece] would place
    nothing for it. *)
Definition afterHumanPiece (env : Env) (board : Board)
    : Completion (Board * list Output * Next) :=
  let out := [PrintBoard board] in
  if cell_is (checkWin board PLAYER) PLAYER then
    Normal (board, out ++ [Say YouWon], Closed)
  else if isBoardFull board then
    Normal (board, out ++ [Say Draw], Closed)
  else
    match bestMove env board None with
    | Normal (move, board) =>
        let board := match move with
                     | Some col => placePiece col OPPONENT board
                     | None => board
                     end in
        let out := out ++ [Say (OpponentPlays move); PrintBoard board] in
        if cell_is (checkWin board OPPONENT) OPPONENT then
          Normal (board, out ++ [Say OpponentWins], Closed)
        else if isBoardFull board then
          Normal (board, out ++ [Say Draw], Closed)
        else Normal (board, out, Prompt)
    | Throw e => Throw e
    | Unfinished => Unfinished
    end.

(** The callback of [rl.question] in [playGame], run on the board with the
    value [parseInt] gave ([None] for [NaN]). *)
Definition playGame (env : Env) (column : option Z) (board : Board)
    : Completion (Board * list Output * Next) :=
  match column with
  | None => Normal (board, [Say InvalidColumn], Prompt)
  | Some column =>
      if (column >=? 0) && (column <? COLS) then
        afterHumanPiece env (placePiece column PLAYER board)
      else Normal (board, [Say InvalidColumn], Prompt)
  end.

(** Swapping the two sides on every cell. *)
Definition swapCell (c : Cell) : Cell :=
  match c with
  | EMPTY => EMPTY
  | PLAYER => OPPONENT
  | OPPONENT => PLAYER
  end.

Definition swap (board : Board) : Board := map (map swapCell) board.

(** What one direction adds to the score of [evaluateLine]. *)
Definition windowDelta (board : Board) (row col : Z) (player : Cell)
    (d : Z * Z) : Z :=
  scoreWindow 0 (windowCounts board row col player d).

(** Position [i] of the window anchored at [(row, col)] lies on the grid. *)
Definition onGrid (row col : Z) (d : Z * Z) (i : Z) : bool :=
  let r := row + i * fst d in
  let c := col + i * snd d in
  (r >=? 0) && (r <? ROWS) && (c >=? 0) && (c <? COLS).

(** One of the four positions of the window lies off the grid. *)
Definition runsOff (row col : Z) (d : Z * Z) : bool :=
  existsb (fun i => negb (onGrid row col d i)) (upto 4).

(** The number of cells a window has counted, and the fact that no count is
    negative. *)
Definition total (cnt : Counts) : Z :=
  countPlayer cnt + countOpponent cnt + emptyCount cnt.

Definition nonneg (cnt : Counts) : Prop :=
  0 <= countPlayer cnt /\ 0 <= countOpponent cnt /\ 0 <= emptyCount cnt.

(** ** Boards used in the examples *)

(** Board literals are written with the program's numbers: 0 for [EMPTY],
    1 for [PLAYER], 2 for [OPPONENT]. *)
Definition cellOf (n : Z) : Cell :=
  match n with
  | 1 => PLAYER
  | 2 => OPPONENT
  | _ => EMPTY
  end.

Definition boardOf (rows : list (list Z)) : Board := map (map cellOf) rows.

(** The human has opened in column 3 and [bestMove] has put its first trial
    piece in column 0: the board of the first call of [minimax] in a game
    that opens this way. *)
Definition openingBoard : Board := boardOf
  [[0; 0; 0; 0; 0; 0; 0];
   [0; 0; 0; 0; 0; 0; 0];
   [0; 0; 0; 0; 0; 0; 0];
   [0; 0; 0; 0; 0; 0; 0];
   [0; 0; 0; 0; 0; 0; 0];
   [2; 0; 0; 1; 0; 0; 0]].

(** A late position, 19 pieces a side, no four-in-a-row, four columns with
    one free cell each. *)
Definition lateBoard : Board := boardOf
  [[0; 0; 0; 2; 2; 1; 0];
   [1; 1; 2; 1; 2; 1; 2];
   [1; 1; 2; 1; 2; 1; 1];
   [2; 2; 1; 1; 1; 2; 2];
   [2; 1; 2; 2; 2; 1; 1];
   [2; 1; 1; 1; 2; 2; 2]].

(** [lateBoard] after the human's piece has gone to the top of column 6. *)
Definition lateBoard6 : Board := setCell lateBoard 0 6 PLAYER.

(** A position with one free cell, 21 pieces of the human and 20 of the
    machine, in which no side has or can still make four-in-a-row. *)
Definition lastCellBoard : Board := boardOf
  [[0; 1; 2; 1; 2; 2; 1];
   [2; 1; 1; 2; 2; 1; 2];
   [1; 2; 2; 2; 1; 1; 1];
   [2; 1; 1; 2; 2; 2; 1];
   [2; 2; 2; 1; 1; 1; 2];
   [2; 1; 1; 2; 1; 1; 1]].

(** The machine has two pieces side by side on the bottom row and needs
    columns 2 and 3 to complete the row. *)
Definition twoInRowBoard : Board := boardOf
  [[0; 0; 0; 0; 0; 0; 0];
   [0; 0; 0; 0; 0; 0; 0];
   [0; 0; 0; 0; 0; 0; 0];
   [0; 0; 0; 0; 0; 0; 0];
   [0; 0; 0; 0; 0; 1; 0];
   [2; 2; 0; 0; 0; 1; 1]].

(** ** Routes *)

(** The board reached by dropping pieces of [player] in the columns of
    [route], first to last. *)
Definition replay (board : Board) (player : Cell) (route : list Z) : Board :=
  fold_left (fun b col => placePiece col player b) route board.

(** The column of the last ply of a route; [None] for the empty route. *)
Definition lastPly (route : list Z) : option Z :=
  match rev route with
  | [] => None
  | col :: _ => Some col
  end.

(** The column of the first ply of a route. *)
Definition firstPly (route : list Z) : option Z :=
  match route with
  | [] => None
  | col :: _ => Some col
  end.

(** A value that is neither infinity. *)
Definition finite (e : ext) : Prop := exists z, e = Fin z.

(** The state of the loop of [bestMove] names no column yet, or names a
    legal one. *)
Definition Legal (board : Board) (st : Best) : Prop :=
  b_bestScore st = NegInf \/
  (finite (b_bestScore st) /\ 0 <= b_move st < COLS /\
   columnHasEmpty board (b_move st) = true).

(** A node is routed when its board is the start board after the plies of its
    route and its [move] is the column of the last of them. *)
Definition routed (board : Board) (player : Cell) (rn : RNode) : Prop :=
  n_board (fst rn) = replay board player (snd rn) /\
  n_move (fst rn) = lastPly (snd rn).

(** ** The boards at which the game asks for a move *)

(** [startGame] prompts on the empty board; a turn of [playGame] that ends by
    calling [playGame] again prompts on the board it leaves. *)
Inductive prompted (env : Env) : Board -> Prop :=
  | prompted_start : prompted env emptyBoard
  | prompted_again (board board' : Board) (column : option Z) (out : list Output) :
      prompted env board ->
      playGame env column board = Normal (board', out, Prompt) ->
      prompted env board'.

(** ** Lines of four *)

(** The four cells from [(row, col)] in steps of [(dRow, dCol)] lie on the
    grid and hold [player]. *)
Definition fourAt (board : Board) (player : Cell) (row col dRow dCol : Z) : Prop :=
  forall i, 0 <= i < 4 ->
            0 <= row + i * dRow < ROWS /\ 0 <= col + i * dCol < COLS /\
            cellAt board (row + i * dRow) (col + i * dCol) = Some player.

(** The steps [checkWin] passes to [checkDirection]. *)
Definition scannedDirections : list (Z * Z) := [(1, 0); (0, 1); (1, 1); (1, -1)].

(** The eight steps between neighbouring cells. *)
Definition allDirections : list (Z * Z) :=
  [(1, 0); (0, 1); (1, 1); (1, -1); (-1, 0); (0, -1); (-1, -1); (-1, 1)].

(** ** Negation and the swapped search *)

(** [-a] on a score or an infinity. *)
Definition ext_neg (a : ext) : ext :=
  match a with
  | NegInf => PosInf
  | Fin z => Fin (- z)
  | PosInf => NegInf
  end.

(** The loop variables of one layer seen from the other side: sides swapped on
    the board, the running value negated, [alpha] and [beta] negated and
    exchanged. *)
Definition swapLayer (st : Layer) : Layer :=
  mkLayer (swap (l_board st)) (ext_neg (l_eval st))
          (ext_neg (l_beta st)) (ext_neg (l_alpha st)).

(** ** The score of a trial move *)

(** The score the minimax branch of [bestMove] gives a column: the value of
    [minimax] on the board with the machine's piece in the column's lowest
    [EMPTY] cell; [-Infinity] for a column without one, which the loop
    skips. *)
Definition trialScore (board : Board) (col : Z) : ext :=
  match lowestEmpty board col (downfrom ROWS) with
  | Some row =>
      fst (minimax MAX_DEPTH (setCell board row col OPPONENT) NegInf PosInf false)
  | None => NegInf
  end.

(** A score or an infinity within the range of [heuristic]. *)
Definition inRange (e : ext) : Prop :=
  match e with
  | Fin z => -16800 <= z <= 16800
  | _ => True
  end.

(** What the loop of [bestMove] holds after the columns [done]: no column
    yet, none of [done] being legal, or the leftmost of the best legal columns
    of [done] with its score. *)
Definition bestSoFar (board : Board) (done : list Z) (st : Best) : Prop :=
  b_board st = board /\
  ((b_move st = -1 /\ b_bestScore st = NegInf /\
    forall c, In c done -> columnHasEmpty board c = false) \/
   exists l1 l2,
     done = l1 ++ b_move st :: l2 /\
     columnHasEmpty board (b_move st) = true /\
     b_bestScore st = trialScore board (b_move st) /\
     (forall c, In c l1 -> columnHasEmpty board c = true ->
                ext_gtb (b_bestScore st) (trialScore board c) = true) /\
     (forall c, In c l2 -> columnHasEmpty board c = true ->
                ext_leb (trialScore board c) (b_bestScore st) = true)).

(** ** Nodes with a lawful move *)

(** The move recorded on a node is [null] on the start node only, and
    otherwise a column of the grid with an [EMPTY] cell on the start board. *)
Definition lawful (board : Board) (rn : RNode) : Prop :=
  match n_move (fst rn) with
  | None => snd rn = []
  | Some c => 0 <= c < COLS /\ columnHasEmpty board c = true
  end.

(** ** Printing the board *)

(** The text of a cell in [row.join(' ')]. *)
Definition cellDigit (c : Cell) : string :=
  match c with
  | EMPTY => "0"
  | PLAYER => "1"
  | OPPONENT => "2"
  end.

Definition newline : string := String (Ascii.ascii_of_nat 10) EmptyString.

(** [printBoard()]: the strings it passes to [console.log], one for each row
    and the separator. *)
Definition printBoard (board : Board) : list string :=
  map (fun row => String.concat " " (map cellDigit row)) board
  ++ [("--------------------" ++ newline)%string].
(** * Properties *)

(** ** Cells, lists of indices and board access *)

Lemma Cell_eqb_spec (a b : Cell) : reflect (a = b) (Cell_eqb a b).
Proof. destruct a, b; simpl; constructor; congruence. Qed.

Lemma Cell_eqb_refl (a : Cell) : Cell_eqb a a = true.
Proof. destruct a; reflexivity. Qed.


Lemma cell_is_true (x : option Cell) (v : Cell) :
  cell_is x v = true <-> x = Some v.
Proof.
  destruct x as [c|]; simpl.
  - destruct (Cell_eqb_spec c v); split; congruence.
  - split; discriminate.
Qed.

Lemma nth_error_setNth_same {A : Type} (l : list A) (n : nat) (v x : A) :
  nth_error l n = Some x -> nth_error (setNth n v l) n = Some v.
Proof.
  revert n; induction l as [|h t IH]; intros [|n] H; simpl in *;
    try discriminate; auto.
Qed.

Lemma setNth_setNth {A : Type} (l : list A) (n : nat) (v w : A) :
  setNth n w (setNth n v l) = setNth n w l.
Proof.
  revert n; induction l as [|h t IH]; intros [|n]; simpl; try reflexivity.
  now rewrite IH.
Qed.

Lemma setNth_same {A : Type} (l : list A) (n : nat) (x : A) :
  nth_error l n = Some x -> setNth n x l = l.
Proof.
  revert n; induction l as [|h t IH]; intros [|n] H; simpl in *;
    try discriminate; try congruence.
  now rewrite IH.
Qed.

Lemma length_setNth {A : Type} (l : list A) (n : nat) (v : A) :
  length (setNth n v l) = length l.
Proof.
  revert n; induction l as [|h t IH]; intros [|n]; simpl; auto.
Qed.

(** Writing a cell that was read, then writing the old value back, gives the
    old board. *)
Lemma setCell_undo (board : Board) (r c : Z) (v x : Cell) :
  cellAt board r c = Some x ->
  setCell (setCell board r c v) r c x = board.
Proof.
  unfold cellAt, setCell.
  destruct ((r <? 0) || (c <? 0)); [discriminate|].
  destruct (nth_error board (Z.to_nat r)) as [cells|] eqn:Hr; [|discriminate].
  intros Hc.
  rewrite (nth_error_setNth_same _ _ _ _ Hr), setNth_setNth, setNth_setNth.
  rewrite (setNth_same cells _ _ Hc).
  now apply setNth_same.
Qed.

(** ** The board after minimax (C5) *)

Section Restore.

Variable below : Below.
Hypothesis below_restores : forall b alpha beta m, snd (below b alpha beta m) = b.

Lemma maxRows_board (col : Z) (rows : list Z) (st : Layer) :
  l_board (maxRows below col rows st) = l_board st.
Proof.
  revert st; induction rows as [|row rows IH]; intros st; simpl; [reflexivity|].
  destruct (cell_is (cellAt (l_board st) row col) EMPTY) eqn:He; [|apply IH].
  apply cell_is_true in He.
  pose proof (below_restores (setCell (l_board st) row col OPPONENT)
                             (l_alpha st) (l_beta st) false) as Hb.
  destruct (below _ _ _ _) as [eval back]; simpl in Hb; subst back.
  rewrite (setCell_undo _ _ _ _ _ He).
  destruct (ext_leb _ _); [reflexivity|].
  now rewrite IH.
Qed.

Lemma minRows_board (col : Z) (rows : list Z) (st : Layer) :
  l_board (minRows below col rows st) = l_board st.
Proof.
  revert st; induction rows as [|row rows IH]; intros st; simpl; [reflexivity|].
  destruct (cell_is (cellAt (l_board st) row col) EMPTY) eqn:He; [|apply IH].
  apply cell_is_true in He.
  pose proof (below_restores (setCell (l_board st) row col PLAYER)
                             (l_alpha st) (l_beta st) true) as Hb.
  destruct (below _ _ _ _) as [eval back]; simpl in Hb; subst back.
  rewrite (setCell_undo _ _ _ _ _ He).
  destruct (ext_leb _ _); [reflexivity|].
  now rewrite IH.
Qed.

Lemma maxCols_board (st : Layer) : l_board (maxCols below st) = l_board st.
Proof.
  unfold maxCols; generalize (upto COLS) as cols.
  intros cols; revert st; induction cols as [|col cols IH]; intros st;
    cbn [fold_left].
  - reflexivity.
  - now rewrite IH, maxRows_board.
Qed.

Lemma minCols_board (st : Layer) : l_board (minCols below st) = l_board st.
Proof.
  unfold minCols; generalize (upto COLS) as cols.
  intros cols; revert st; induction cols as [|col cols IH]; intros st;
    cbn [fold_left].
  - reflexivity.
  - now rewrite IH, minRows_board.
Qed.

End Restore.

Lemma minimax_board (depth : nat) :
  forall board alpha beta m, snd (minimax depth board alpha beta m) = board.
Proof.
  induction depth as [|depth IH]; intros board alpha beta m; cbn [minimax].
  - reflexivity.
  - destruct (gameOver board); [reflexivity|].
    destruct m; cbn [snd].
    + apply (maxCols_board (minimax depth) IH).
    + apply (minCols_board (minimax depth) IH).
Qed.

Lemma bestRows_board (col : Z) (rows : list Z) (st : Best) :
  b_board (bestRows col rows st) = b_board st.
Proof.
  revert st; induction rows as [|row rows IH]; intros st; cbn [bestRows];
    [reflexivity|].
  destruct (cell_is (cellAt (b_board st) row col) EMPTY) eqn:He; [|apply IH].
  apply cell_is_true in He.
  pose proof (minimax_board MAX_DEPTH (setCell (b_board st) row col OPPONENT)
                            NegInf PosInf false) as Hb.
  destruct (minimax _ _ _ _ _) as [score back]; cbn [snd] in Hb; subst back.
  rewrite (setCell_undo _ _ _ _ _ He).
  destruct (ext_gtb _ _); reflexivity.
Qed.

Lemma bestCols_board (cols : list Z) (st : Best) :
  b_board (fold_left (fun st col => bestRows col (downfrom ROWS) st) cols st)
  = b_board st.
Proof.
  revert st; induction cols as [|col cols IH]; intros st; cbn [fold_left].
  - reflexivity.
  - now rewrite IH, bestRows_board.
Qed.

Lemma isEasy_false (difficulty : option string) :
  difficulty <> Some "easy"%string -> isEasy difficulty = false.
Proof.
  destruct difficulty as [s|]; simpl; [|reflexivity].
  intros H; apply String.eqb_neq; congruence.
Qed.

Lemma bestMove_hard_board (env : Env) (board : Board) (difficulty : option string) :
  difficulty <> Some "easy"%string ->
  exists move, bestMove env board difficulty = Normal (move, board).
Proof.
  intros Hd.
  unfold bestMove; rewrite (isEasy_false _ Hd); cbv zeta.
  rewrite bestCols_board; cbn [b_board].
  eexists; reflexivity.
Qed.

(** C5. For every board, a call of [minimax] (any depth, bounds and layer)
    and a call of the minimax branch of [bestMove] return, and the board is
    then cell for cell what it was before the call. Every path of the loops is
    covered, the [beta <= alpha] break included: the write that undoes a
    placement comes before the test. *)
Theorem minimax_and_bestMove_restore_board :
  (forall depth board alpha beta isMaximizingPlayer,
      snd (minimax depth board alpha beta isMaximizingPlayer) = board) /\
  (forall env board difficulty,
      difficulty <> Some "easy"%string ->
      exists move, bestMove env board difficulty = Normal (move, board)).
Proof.
  split.
  - intros; apply minimax_board.
  - intros env board difficulty Hd; now apply bestMove_hard_board.
Qed.

Lemma minimax_and_bestMove_restore_board_witness :
  None <> Some "easy"%string /\
  exists move, bestMove (asWritten 0 0) lateBoard None = Normal (move, lateBoard).
Proof.
  assert (Hd : @None string <> Some "easy"%string) by discriminate.
  split; [exact Hd|].
  exact (proj2 minimax_and_bestMove_restore_board (asWritten 0 0) lateBoard None Hd).
Defined.

(** ** Windows that leave the grid (C8) *)

Lemma countStep_total board row col player d cnt i :
  nonneg cnt ->
  nonneg (countStep board row col player d cnt i) /\
  total (countStep board row col player d cnt i)
  = total cnt + (if onGrid row col d i then 1 else 0).
Proof.
  intros (Hp & Ho & He); unfold countStep, onGrid, total, nonneg; cbv zeta.
  destruct ((_ >=? 0) && _ && _ && _).
  - destruct (cell_is _ player); [|destruct (cell_is _ (rival player))];
      simpl; lia.
  - lia.
Qed.

Lemma countSteps_total board row col player d (l : list Z) (cnt : Counts) :
  nonneg cnt ->
  nonneg (fold_left (countStep board row col player d) l cnt) /\
  total (fold_left (countStep board row col player d) l cnt)
  = total cnt + Z.of_nat (length (filter (onGrid row col d) l)).
Proof.
  revert cnt; induction l as [|i l IH]; intros cnt Hn; cbn [fold_left filter].
  - split; [assumption|simpl; lia].
  - destruct (countStep_total board row col player d cnt i Hn) as [Hn' Ht].
    destruct (IH _ Hn') as [Hn'' Ht'].
    split; [assumption|].
    rewrite Ht', Ht.
    destruct (onGrid row col d i); cbn [length]; lia.
Qed.

Lemma filter_short {A : Type} (f : A -> bool) (l : list A) :
  existsb (fun x => negb (f x)) l = true ->
  (length (filter f l) < length l)%nat.
Proof.
  induction l as [|x l IH]; simpl; [discriminate|].
  pose proof (filter_length_le f l) as Hle.
  destruct (f x); simpl; intros Hex; [apply IH in Hex|]; lia.
Qed.

Lemma scoreWindow_short (score : Z) (cnt : Counts) :
  nonneg cnt -> total cnt < 4 -> scoreWindow score cnt = score.
Proof.
  intros (Hp & Ho & He) Ht; unfold total in Ht; unfold scoreWindow.
  repeat match goal with
         | |- context [?a =? ?b] => destruct (Z.eqb_spec a b)
         end; simpl; lia.
Qed.

Lemma scoreWindow_shift (score : Z) (cnt : Counts) :
  scoreWindow score cnt = score + scoreWindow 0 cnt.
Proof.
  unfold scoreWindow.
  repeat match goal with
         | |- context [if ?b then _ else _] => destruct b
         end; lia.
Qed.

Lemma evaluateLine_sum_from board row col player (ds : list (Z * Z)) (score : Z) :
  fold_left (fun score d => scoreWindow score (windowCounts board row col player d))
            ds score
  = score + fold_right Z.add 0 (map (windowDelta board row col player) ds).
Proof.
  revert score; induction ds as [|d ds IH]; intros score; cbn [fold_left map fold_right].
  - lia.
  - rewrite IH, (scoreWindow_shift score); unfold windowDelta.
    symmetry; apply Z.add_assoc.
Qed.

(** C8. The score of [evaluateLine] is the sum, over the four directions, of
    what each direction's 4-cell window adds; for every board, anchor cell,
    side and direction, a window with a position off the grid adds exactly
    0, whatever the cells on the grid hold. *)
Theorem clipped_window_scores_zero :
  forall board row col player,
    evaluateLine board row col player
    = fold_right Z.add 0 (map (windowDelta board row col player) directions) /\
    forall d, runsOff row col d = true ->
              windowDelta board row col player d = 0.
Proof.
  intros board row col player; split.
  - unfold evaluateLine; rewrite evaluateLine_sum_from; lia.
  - intros d Hoff; unfold windowDelta, windowCounts.
    assert (Hz : nonneg (mkCounts 0 0 0)) by (unfold nonneg; simpl; lia).
    destruct (countSteps_total board row col player d (upto 4) _ Hz) as [Hn Ht].
    apply scoreWindow_short; [assumption|].
    rewrite Ht.
    pose proof (filter_short (onGrid row col d) (upto 4) Hoff) as Hs.
    change (length (upto 4)) with 4%nat in Hs.
    unfold total; cbn [countPlayer countOpponent emptyCount]; lia.
Qed.

Lemma clipped_window_scores_zero_witness :
  runsOff 5 5 (0, 1) = true /\
  windowDelta lateBoard 5 5 OPPONENT (0, 1) = 0.
Proof.
  split; [reflexivity|].
  exact (proj2 (clipped_window_scores_zero lateBoard 5 5 OPPONENT) (0, 1) eq_refl).
Defined.

(** ** Swapping the sides (C9) *)

Lemma cellAt_swap (board : Board) (r c : Z) :
  cellAt (swap board) r c = option_map swapCell (cellAt board r c).
Proof.
  unfold cellAt, swap.
  destruct ((r <? 0) || (c <? 0)); [reflexivity|].
  rewrite nth_error_map.
  destruct (nth_error board (Z.to_nat r)) as [cells|]; simpl; [|reflexivity].
  now rewrite nth_error_map.
Qed.

Lemma cell_is_swap (x : option Cell) (v : Cell) :
  cell_is (option_map swapCell x) (swapCell v) = cell_is x v.
Proof. destruct x as [[]|], v; reflexivity. Qed.

Lemma countStep_swap board row col player d cnt i :
  player <> EMPTY ->
  countStep (swap board) row col (swapCell player) d cnt i
  = countStep board row col player d cnt i.
Proof.
  intros Hp; unfold countStep; cbv zeta.
  rewrite cellAt_swap, cell_is_swap.
  replace (rival (swapCell player)) with (swapCell (rival player))
    by (destruct player; [congruence|reflexivity|reflexivity]).
  now rewrite cell_is_swap.
Qed.

Lemma windowCounts_swap board row col player d :
  player <> EMPTY ->
  windowCounts (swap board) row col (swapCell player) d
  = windowCounts board row col player d.
Proof.
  intros Hp; unfold windowCounts.
  generalize (mkCounts 0 0 0) as cnt; generalize (upto 4) as l.
  induction l as [|i l IH]; intros cnt; cbn [fold_left]; [reflexivity|].
  now rewrite countStep_swap, IH.
Qed.

Lemma evaluateLine_swap board row col player :
  player <> EMPTY ->
  evaluateLine (swap board) row col (swapCell player)
  = evaluateLine board row col player.
Proof.
  intros Hp; unfold evaluateLine.
  generalize 0 as score; generalize directions as ds.
  induction ds as [|d ds IH]; intros score; cbn [fold_left]; [reflexivity|].
  now rewrite windowCounts_swap, IH.
Qed.

Lemma heuristicCell_swap board row score col :
  heuristicCell (swap board) row (- score) col
  = - heuristicCell board row score col.
Proof.
  unfold heuristicCell.
  rewrite cellAt_swap.
  change OPPONENT with (swapCell PLAYER) at 1 2.
  change PLAYER with (swapCell OPPONENT) at 3 4.
  rewrite !cell_is_swap, !evaluateLine_swap by discriminate.
  destruct (cellAt board row col) as [[]|]; simpl; lia.
Qed.

Lemma heuristicRow_swap board row (cols : list Z) (score : Z) :
  fold_left (heuristicCell (swap board) row) cols (- score)
  = - fold_left (heuristicCell board row) cols score.
Proof.
  revert score; induction cols as [|col cols IH]; intros score; cbn [fold_left].
  - reflexivity.
  - now rewrite heuristicCell_swap, IH.
Qed.

(** C9. For every board, swapping every [PLAYER] cell with an [OPPONENT]
    cell and vice versa negates the score: [heuristic (swap b) = - heuristic b]. *)
Theorem heuristic_swap_antisymmetric :
  forall board, heuristic (swap board) = - heuristic board.
Proof.
  intros board; unfold heuristic.
  change 0 with (- 0) at 1.
  generalize 0 as score; generalize (upto ROWS) as rows.
  induction rows as [|row rows IH]; intros score; cbn [fold_left].
  - reflexivity.
  - now rewrite heuristicRow_swap, IH.
Qed.

(** ** The call log does not change what minimax computes *)

Section EraseLog.

Variable below : Below.
Variable belowLog : BelowLog.
Hypothesis below_erase :
  forall b alpha beta m, fst (belowLog b alpha beta m) = below b alpha beta m.

Lemma maxRowsLog_erase (col : Z) (rows : list Z) (st : Layer) (log : list Call) :
  fst (maxRowsLog belowLog col rows st log) = maxRows below col rows st.
Proof.
  revert st log; induction rows as [|row rows IH]; intros st log;
    cbn [maxRowsLog maxRows]; [reflexivity|].
  destruct (cell_is _ EMPTY); [|apply IH].
  rewrite <- below_erase.
  destruct (belowLog _ _ _ _) as [[eval back] calls]; cbn [fst].
  destruct (ext_leb _ _); [reflexivity|apply IH].
Qed.

Lemma minRowsLog_erase (col : Z) (rows : list Z) (st : Layer) (log : list Call) :
  fst (minRowsLog belowLog col rows st log) = minRows below col rows st.
Proof.
  revert st log; induction rows as [|row rows IH]; intros st log;
    cbn [minRowsLog minRows]; [reflexivity|].
  destruct (cell_is _ EMPTY); [|apply IH].
  rewrite <- below_erase.
  destruct (belowLog _ _ _ _) as [[eval back] calls]; cbn [fst].
  destruct (ext_leb _ _); [reflexivity|apply IH].
Qed.

Lemma maxColsLog_erase (st : Layer) (log : list Call) :
  fst (maxColsLog belowLog st log) = maxCols below st.
Proof.
  unfold maxColsLog, maxCols; generalize (upto COLS) as cols.
  intros cols; revert st log; induction cols as [|col cols IH]; intros st log;
    cbn [fold_left]; [reflexivity|].
  rewrite <- (maxRowsLog_erase col (downfrom ROWS) st log).
  destruct (maxRowsLog _ _ _ _ _) as [st' log']; apply IH.
Qed.

Lemma minColsLog_erase (st : Layer) (log : list Call) :
  fst (minColsLog belowLog st log) = minCols below st.
Proof.
  unfold minColsLog, minCols; generalize (upto COLS) as cols.
  intros cols; revert st log; induction cols as [|col cols IH]; intros st log;
    cbn [fold_left]; [reflexivity|].
  rewrite <- (minRowsLog_erase col (downfrom ROWS) st log).
  destruct (minRowsLog _ _ _ _ _) as [st' log']; apply IH.
Qed.

End EraseLog.

Lemma minimaxLog_erase (depth : nat) :
  forall board alpha beta m,
    fst (minimaxLog depth board alpha beta m) = minimax depth board alpha beta m.
Proof.
  induction depth as [|depth IH]; intros board alpha beta m;
    cbn [minimaxLog minimax]; [reflexivity|].
  destruct (gameOver board); [reflexivity|].
  destruct m.
  - rewrite <- (maxColsLog_erase (minimax depth) (minimaxLog depth) IH
                                 (mkLayer board NegInf alpha beta)
                                 [mkCall board (S depth) alpha beta true]).
    now destruct (maxColsLog _ _ _) as [st log].
  - rewrite <- (minColsLog_erase (minimax depth) (minimaxLog depth) IH
                                 (mkLayer board PosInf alpha beta)
                                 [mkCall board (S depth) alpha beta false]).
    now destruct (minColsLog _ _ _) as [st log].
Qed.

(** ** What a layer of minimax tries (C1, C4) *)

(** C1, the code at a failing input. [minimax(board, 1, -Infinity, Infinity,
    false)] on the opening board: column 0 holds one piece, so its lowest
    free cell is row 4. The layer tries a piece there and then one in every
    free cell above it, and likewise in the other columns: 40 placements for
    7 legal columns. The board with the piece in row 3 of column 0, above the
    free cell of row 4, breaks gravity, and the value returned is the score
    of such a board, lower than the score of every lowest-cell placement. *)
Theorem minimax_tries_cells_above_lowest :
  let log := snd (minimaxLog 1 openingBoard NegInf PosInf false) in
  let floating := setCell openingBoard 3 0 PLAYER in
  gravity openingBoard = true /\
  lowestEmpty openingBoard 0 (downfrom ROWS) = Some 4 /\
  existsb (Board_eqb floating) (placementsOf 1 log) = true /\
  gravity floating = false /\
  length (placementsOf 1 log) = 40%nat /\
  length (filter (columnHasEmpty openingBoard) (upto COLS)) = 7%nat /\
  forallb gravity (placementsOf 1 log) = false /\
  fst (minimax 1 openingBoard NegInf PosInf false) = Fin (-25) /\
  map (fun s => heuristic (fst s)) (generateSuccessors openingBoard PLAYER)
  = [-10; -15; -15; -10; -10; -10; -10].
Proof. vm_compute. repeat split; reflexivity. Qed.

(** C4, the code at a failing input. The maximizing layer
    [minimax(lateBoard6, 1, -Infinity, 0, true)] is a call that
    [minimax(lateBoard, 2, -Infinity, Infinity, false)] makes. Its first move,
    in column 0, scores 10, so [beta <= alpha] holds from then on; the layer
    still tries columns 1 and 2 and returns the score of column 1. The break
    leaves the loop over rows only. *)
Theorem minimax_examines_columns_after_cutoff :
  let log := snd (minimaxLog 1 lateBoard6 NegInf (Fin 0) true) in
  existsb (fun c => Board_eqb (c_board c) lateBoard6 && Nat.eqb (c_depth c) 1
                    && ext_leb (c_alpha c) NegInf
                    && ext_leb (c_beta c) (Fin 0) && ext_leb (Fin 0) (c_beta c)
                    && c_max c)
          (snd (minimaxLog 2 lateBoard NegInf PosInf false)) = true /\
  gravity lateBoard6 = true /\ gameOver lateBoard6 = false /\
  placementsOf 1 log
  = [setCell lateBoard6 0 0 OPPONENT; setCell lateBoard6 0 1 OPPONENT;
     setCell lateBoard6 0 2 OPPONENT] /\
  heuristic (setCell lateBoard6 0 0 OPPONENT) = 10 /\
  ext_leb (Fin 0) (ext_max NegInf (Fin 10)) = true /\
  heuristic (setCell lateBoard6 0 1 OPPONENT) = 100 /\
  fst (minimax 1 lateBoard6 NegInf (Fin 0) true) = Fin 100.
Proof. vm_compute. repeat split; reflexivity. Qed.

(** ** The start node of the best-first search (C7) *)

(** With a function bound to [heuristicEasy], the start node has [g = 0],
    [h] the value of that function on the board, and [f = h]. *)
Lemma aStarSearch_bound (h : Board -> Z) (randomColumn : Z) (fuel : nat)
    (board : Board) (player : Cell) :
  aStarSearch (mkEnv (Some h) randomColumn fuel) board player
  = aStarLoop fuel player [mkNode board None 0 (Some (h board)) (h board)] [].
Proof. reflexivity. Qed.

(** C7, the code on every input. [aStarSearch] builds its start node with a
    call of [heuristicEasy], an identifier the program binds nowhere (the
    scoring function of the program is named [heuristic]). For every board
    the construction of the start node throws a ReferenceError, and so does
    the ['easy'] branch of [bestMove]. *)
Theorem aStarSearch_start_node_throws :
  forall randomColumn fuel board player,
    aStarSearch (asWritten randomColumn fuel) board player
    = Throw (ReferenceError "heuristicEasy") /\
    bestMove (asWritten randomColumn fuel) board (Some "easy"%string)
    = Throw (ReferenceError "heuristicEasy").
Proof. intros; split; reflexivity. Qed.

(** ** Dropping into a full column (C6) *)

Lemma columnHasEmpty_false (board : Board) (col : Z) :
  columnHasEmpty board col = false ->
  forall row, In row (downfrom ROWS) -> cell_is (cellAt board row col) EMPTY = false.
Proof.
  unfold columnHasEmpty, downfrom; intros Hfull row Hin.
  apply in_rev in Hin.
  destruct (cell_is (cellAt board row col) EMPTY) eqn:He; [|reflexivity].
  assert (existsb (fun row => cell_is (cellAt board row col) EMPTY) (upto ROWS) = true)
    by (apply existsb_exists; eauto).
  congruence.
Qed.

Lemma placeRows_full (board : Board) (col : Z) (player : Cell) (rows : list Z) :
  (forall row, In row rows -> cell_is (cellAt board row col) EMPTY = false) ->
  placeRows board col player rows = board.
Proof.
  induction rows as [|row rows IH]; intros Hfull; cbn [placeRows]; [reflexivity|].
  rewrite (Hfull row) by (left; reflexivity).
  apply IH; intros; apply Hfull; right; assumption.
Qed.

Lemma placePiece_full (board : Board) (col : Z) (player : Cell) :
  columnHasEmpty board col = false -> placePiece col player board = board.
Proof.
  intros Hfull; unfold placePiece.
  apply placeRows_full, columnHasEmpty_false, Hfull.
Qed.

Lemma playGame_full (env : Env) (board : Board) (col : Z) :
  columnHasEmpty board col = false -> 0 <= col < COLS ->
  playGame env (Some col) board = afterHumanPiece env board.
Proof.
  intros Hfull [Hlo Hhi]; unfold playGame.
  replace ((col >=? 0) && (col <? COLS)) with true;
    [now rewrite placePiece_full|].
  symmetry; apply andb_true_iff; split; [apply Z.geb_le|apply Z.ltb_lt]; lia.
Qed.

(** C6 fails as stated. Column 3 of [lateBoard] has no [EMPTY] cell. The
    drop of the human's piece into it returns the same board; [playGame]
    takes the column as valid, reports nothing, and goes on to the machine's
    move. *)
Lemma full_column_drop_is_silent :
  columnHasEmpty lateBoard 3 = false /\
  placePiece 3 PLAYER lateBoard = lateBoard /\
  playGame (asWritten 0 0) (Some 3) lateBoard
  = Normal (setCell lateBoard 0 0 OPPONENT,
            [PrintBoard lateBoard; Say (OpponentPlays (Some 0));
             PrintBoard (setCell lateBoard 0 0 OPPONENT)],
            Prompt).
Proof. vm_compute. repeat split; reflexivity. Qed.

(** C6, amended. For every board, column and side, a drop into a column
    with no [EMPTY] cell returns normally and leaves the board as it was;
    and [playGame] tests the human's column against the range [0, COLS)
    only, so for a full column in that range it continues as if the piece
    had been placed, on the unchanged board. *)
Theorem placePiece_full_column_unchanged :
  forall board col player,
    columnHasEmpty board col = false ->
    placePiece col player board = board /\
    forall env, 0 <= col < COLS ->
                playGame env (Some col) board = afterHumanPiece env board.
Proof.
  intros board col player Hfull.
  split; [now apply placePiece_full|].
  intros env Hcol; now apply playGame_full.
Qed.

Lemma placePiece_full_column_unchanged_witness :
  columnHasEmpty lateBoard 3 = false /\
  placePiece 3 PLAYER lateBoard = lateBoard /\
  playGame (asWritten 0 0) (Some 3) lateBoard
  = afterHumanPiece (asWritten 0 0) lateBoard.
Proof.
  assert (Hfull : columnHasEmpty lateBoard 3 = false) by reflexivity.
  destruct (placePiece_full_column_unchanged lateBoard 3 PLAYER Hfull) as [Hp Hg].
  split; [exact Hfull|split; [exact Hp|]].
  apply Hg; unfold COLS; lia.
Defined.

(** ** Index ranges and well-formed boards *)

Lemma in_upto (n i : Z) : In i (upto n) <-> 0 <= i < n.
Proof.
  unfold upto; rewrite in_map_iff; split.
  - intros (k & <- & Hk); apply in_seq in Hk; lia.
  - intros Hi; exists (Z.to_nat i); split; [lia|apply in_seq; lia].
Qed.

Lemma in_downfrom (n i : Z) : In i (downfrom n) <-> 0 <= i < n.
Proof. unfold downfrom; rewrite <- in_rev; apply in_upto. Qed.

Lemma Forall_setNth {A : Type} (Q : A -> Prop) (l : list A) (n : nat) (v : A) :
  Forall Q l -> Q v -> Forall Q (setNth n v l).
Proof.
  intros Hl Hv; revert n; induction Hl as [|h t Hh Ht IH]; intros [|n]; simpl;
    constructor; auto.
Qed.

Lemma wf_setCell (board : Board) (r c : Z) (v : Cell) :
  wf_board board -> wf_board (setCell board r c v).
Proof.
  intros [Hlen Hrows]; unfold setCell.
  destruct ((r <? 0) || (c <? 0)); [split; assumption|].
  destruct (nth_error board (Z.to_nat r)) as [cells|] eqn:Hr; [|split; assumption].
  split; [now rewrite length_setNth|].
  apply Forall_setNth; [assumption|].
  rewrite length_setNth.
  apply nth_error_In in Hr.
  rewrite Forall_forall in Hrows; auto.
Qed.

Lemma forallb_false_nth {A : Type} (f : A -> bool) (l : list A) :
  forallb f l = false ->
  exists n x, nth_error l n = Some x /\ f x = false /\ (n < length l)%nat.
Proof.
  induction l as [|h t IH]; simpl; [discriminate|].
  destruct (f h) eqn:Hh; simpl.
  - intros Ht; destruct (IH Ht) as (n & x & Hn & Hx & Hlt).
    exists (S n), x; repeat split; auto; lia.
  - intros _; exists 0%nat, h; repeat split; auto; lia.
Qed.

(** On a well-formed board that is not full, the top cell of some column of
    the grid is [EMPTY]. *)
Lemma not_full_has_empty (board : Board) :
  wf_board board -> isBoardFull board = false ->
  exists col, 0 <= col < COLS /\ cellAt board 0 col = Some EMPTY.
Proof.
  intros [Hlen Hrows] Hfull; unfold isBoardFull in Hfull.
  destruct (nth_error board 0) as [cells|] eqn:H0; [|discriminate].
  destruct (forallb_false_nth _ _ Hfull) as (n & x & Hn & Hx & Hlt).
  assert (Hc : length cells = Z.to_nat COLS).
  { apply nth_error_In in H0; rewrite Forall_forall in Hrows; auto. }
  exists (Z.of_nat n); split; [unfold COLS in *; lia|].
  unfold cellAt.
  replace (Z.of_nat n <? 0) with false by (symmetry; apply Z.ltb_ge; lia).
  change (0 <? 0) with false; cbn [orb].
  change (Z.to_nat 0) with 0%nat; rewrite H0, Nat2Z.id, Hn.
  destruct (Cell_eqb_spec x EMPTY); [congruence|discriminate].
Qed.

Lemma columnHasEmpty_true (board : Board) (col row : Z) :
  0 <= row < ROWS -> cellAt board row col = Some EMPTY ->
  columnHasEmpty board col = true.
Proof.
  intros Hrow Hcell; unfold columnHasEmpty.
  apply existsb_exists; exists row; split; [now apply in_upto|].
  now apply cell_is_true.
Qed.

(** ** Minimax returns a score *)

Lemma ext_max_finite (a : ext) (z : Z) :
  a = NegInf \/ finite a -> finite (ext_max a (Fin z)).
Proof.
  intros [->|[y ->]]; unfold ext_max; simpl; [now exists z|].
  destruct (y <=? z); eexists; reflexivity.
Qed.

Lemma ext_min_finite (a : ext) (z : Z) :
  a = PosInf \/ finite a -> finite (ext_min a (Fin z)).
Proof.
  intros [->|[y ->]]; unfold ext_min; simpl; [now exists z|].
  destruct (y <=? z); eexists; reflexivity.
Qed.

Lemma finite_not_NegInf (e : ext) : finite e -> e <> NegInf.
Proof. intros [z ->]; discriminate. Qed.

Lemma finite_not_PosInf (e : ext) : finite e -> e <> PosInf.
Proof. intros [z ->]; discriminate. Qed.

Section Finite.

Variable below : Below.
Hypothesis below_restores : forall b alpha beta m, snd (below b alpha beta m) = b.
Hypothesis below_finite :
  forall b alpha beta m, wf_board b -> finite (fst (below b alpha beta m)).

Lemma maxRows_finite (col : Z) (rows : list Z) (st : Layer) :
  wf_board (l_board st) ->
  l_eval st = NegInf \/ finite (l_eval st) ->
  finite (l_eval (maxRows below col rows st)) \/
  (l_eval (maxRows below col rows st) = NegInf /\ l_eval st = NegInf /\
   forall row, In row rows ->
               cell_is (cellAt (l_board st) row col) EMPTY = false).
Proof.
  revert st; induction rows as [|row rows IH]; intros st Hwf He; cbn [maxRows].
  - destruct He as [He|He]; [right|now left].
    repeat split; try assumption; intros ? [].
  - destruct (cell_is (cellAt (l_board st) row col) EMPTY) eqn:Hcell.
    + left.
      pose proof (below_restores (setCell (l_board st) row col OPPONENT)
                                 (l_alpha st) (l_beta st) false) as Hb.
      destruct (below_finite (setCell (l_board st) row col OPPONENT)
                             (l_alpha st) (l_beta st) false
                             (wf_setCell _ _ _ _ Hwf)) as [z Hz].
      destruct (below _ _ _ _) as [eval back]; cbn [fst snd] in *; subst.
      apply cell_is_true in Hcell.
      rewrite (setCell_undo _ _ _ _ _ Hcell).
      pose proof (ext_max_finite (l_eval st) z He) as Hfin.
      destruct (ext_leb _ _); [exact Hfin|].
      match goal with
      | |- finite (l_eval (maxRows _ _ _ ?s)) =>
          destruct (IH s Hwf (or_intror Hfin)) as [Hf|(_ & Hn & _)];
          [exact Hf|]
      end.
      now apply finite_not_NegInf in Hfin.
    + destruct (IH st Hwf He) as [Hf|(Hn & Hst & Hrows)]; [now left|right].
      repeat split; try assumption.
      intros r [<-|Hr]; auto.
Qed.

Lemma maxCols_finite (cols : list Z) (st : Layer) :
  wf_board (l_board st) ->
  l_eval st = NegInf \/ finite (l_eval st) ->
  let st' := fold_left (fun st col => maxRows below col (downfrom ROWS) st) cols st in
  finite (l_eval st') \/
  (l_eval st' = NegInf /\ l_eval st = NegInf /\
   forall col row, In col cols -> In row (downfrom ROWS) ->
                   cell_is (cellAt (l_board st) row col) EMPTY = false).
Proof.
  revert st; induction cols as [|col cols IH]; intros st Hwf He; cbn [fold_left].
  - destruct He as [He|He]; [right|now left].
    repeat split; try assumption; intros ? ? [].
  - pose proof (maxRows_board below below_restores col (downfrom ROWS) st) as Hb.
    destruct (maxRows_finite col (downfrom ROWS) st Hwf He)
      as [Hf|(Hn & Hst & Hrows)].
    + left.
      destruct (IH (maxRows below col (downfrom ROWS) st)) as [Hf'|(_ & Hn & _)];
        [now rewrite Hb|now right|exact Hf'|].
      now apply finite_not_NegInf in Hf.
    + destruct (IH (maxRows below col (downfrom ROWS) st))
        as [Hf'|(Hn' & _ & Hcols)]; [now rewrite Hb|now left|now left|right].
      repeat split; try assumption.
      intros c r [<-|Hc] Hr; [now apply Hrows|].
      rewrite <- Hb; now apply Hcols.
Qed.

End Finite.

Section FiniteMin.

Variable below : Below.
Hypothesis below_restores : forall b alpha beta m, snd (below b alpha beta m) = b.
Hypothesis below_finite :
  forall b alpha beta m, wf_board b -> finite (fst (below b alpha beta m)).

Lemma minRows_finite (col : Z) (rows : list Z) (st : Layer) :
  wf_board (l_board st) ->
  l_eval st = PosInf \/ finite (l_eval st) ->
  finite (l_eval (minRows below col rows st)) \/
  (l_eval (minRows below col rows st) = PosInf /\ l_eval st = PosInf /\
   forall row, In row rows ->
               cell_is (cellAt (l_board st) row col) EMPTY = false).
Proof.
  revert st; induction rows as [|row rows IH]; intros st Hwf He; cbn [minRows].
  - destruct He as [He|He]; [right|now left].
    repeat split; try assumption; intros ? [].
  - destruct (cell_is (cellAt (l_board st) row col) EMPTY) eqn:Hcell.
    + left.
      pose proof (below_restores (setCell (l_board st) row col PLAYER)
                                 (l_alpha st) (l_beta st) true) as Hb.
      destruct (below_finite (setCell (l_board st) row col PLAYER)
                             (l_alpha st) (l_beta st) true
                             (wf_setCell _ _ _ _ Hwf)) as [z Hz].
      destruct (below _ _ _ _) as [eval back]; cbn [fst snd] in *; subst.
      apply cell_is_true in Hcell.
      rewrite (setCell_undo _ _ _ _ _ Hcell).
      pose proof (ext_min_finite (l_eval st) z He) as Hfin.
      destruct (ext_leb _ _); [exact Hfin|].
      match goal with
      | |- finite (l_eval (minRows _ _ _ ?s)) =>
          destruct (IH s Hwf (or_intror Hfin)) as [Hf|(_ & Hn & _)];
          [exact Hf|]
      end.
      now apply finite_not_PosInf in Hfin.
    + destruct (IH st Hwf He) as [Hf|(Hn & Hst & Hrows)]; [now left|right].
      repeat split; try assumption.
      intros r [<-|Hr]; auto.
Qed.

Lemma minCols_finite (cols : list Z) (st : Layer) :
  wf_board (l_board st) ->
  l_eval st = PosInf \/ finite (l_eval st) ->
  let st' := fold_left (fun st col => minRows below col (downfrom ROWS) st) cols st in
  finite (l_eval st') \/
  (l_eval st' = PosInf /\ l_eval st = PosInf /\
   forall col row, In col cols -> In row (downfrom ROWS) ->
                   cell_is (cellAt (l_board st) row col) EMPTY = false).
Proof.
  revert st; induction cols as [|col cols IH]; intros st Hwf He; cbn [fold_left].
  - destruct He as [He|He]; [right|now left].
    repeat split; try assumption; intros ? ? [].
  - pose proof (minRows_board below below_restores col (downfrom ROWS) st) as Hb.
    destruct (minRows_finite col (downfrom ROWS) st Hwf He)
      as [Hf|(Hn & Hst & Hrows)].
    + left.
      destruct (IH (minRows below col (downfrom ROWS) st)) as [Hf'|(_ & Hn & _)];
        [now rewrite Hb|now right|exact Hf'|].
      now apply finite_not_PosInf in Hf.
    + destruct (IH (minRows below col (downfrom ROWS) st))
        as [Hf'|(Hn' & _ & Hcols)]; [now rewrite Hb|now left|now left|right].
      repeat split; try assumption.
      intros c r [<-|Hc] Hr; [now apply Hrows|].
      rewrite <- Hb; now apply Hcols.
Qed.

End FiniteMin.

Lemma minimax_finite (depth : nat) :
  forall board alpha beta m,
    wf_board board -> finite (fst (minimax depth board alpha beta m)).
Proof.
  induction depth as [|depth IH]; intros board alpha beta m Hwf; cbn [minimax].
  - eexists; reflexivity.
  - destruct (gameOver board) eqn:Hover; [eexists; reflexivity|].
    unfold gameOver in Hover; apply orb_false_iff in Hover as [_ Hfull].
    destruct (not_full_has_empty board Hwf Hfull) as (col & Hcol & Hcell).
    assert (Hrow : In 0 (downfrom ROWS)) by (apply in_downfrom; unfold ROWS; lia).
    apply in_upto in Hcol.
    apply cell_is_true in Hcell.
    destruct m; cbn [fst]; unfold maxCols, minCols.
    + destruct (maxCols_finite (minimax depth) (minimax_board depth) IH
                  (upto COLS) (mkLayer board NegInf alpha beta) Hwf
                  (or_introl eq_refl)) as [Hf|(_ & _ & Hnone)]; [exact Hf|].
      specialize (Hnone col 0 Hcol Hrow); cbn [l_board] in Hnone; congruence.
    + destruct (minCols_finite (minimax depth) (minimax_board depth) IH
                  (upto COLS) (mkLayer board PosInf alpha beta) Hwf
                  (or_introl eq_refl)) as [Hf|(_ & _ & Hnone)]; [exact Hf|].
      specialize (Hnone col 0 Hcol Hrow); cbn [l_board] in Hnone; congruence.
Qed.

(** ** The minimax branch of [bestMove] names a legal column *)

Lemma columnHasEmpty_row (board : Board) (col : Z) :
  columnHasEmpty board col = true ->
  exists row, In row (downfrom ROWS) /\ cell_is (cellAt board row col) EMPTY = true.
Proof.
  unfold columnHasEmpty; intros H.
  apply existsb_exists in H as (row & Hin & Hcell).
  exists row; split; [apply in_downfrom; now apply in_upto|assumption].
Qed.

Lemma bestRows_legal (board : Board) (col : Z) (rows : list Z) (st : Best) :
  wf_board board -> b_board st = board -> 0 <= col < COLS ->
  (forall row, In row rows -> 0 <= row < ROWS) ->
  Legal board st ->
  Legal board (bestRows col rows st) /\
  (finite (b_bestScore st) \/
   (exists row, In row rows /\ cell_is (cellAt board row col) EMPTY = true) ->
   finite (b_bestScore (bestRows col rows st))).
Proof.
  intros Hwf Hb Hcol; revert st Hb.
  induction rows as [|row rows IH]; intros st Hb Hrows Hleg; cbn [bestRows].
  - split; [assumption|].
    intros [Hf|(r & [] & _)]; assumption.
  - rewrite Hb.
    destruct (cell_is (cellAt board row col) EMPTY) eqn:Hcell.
    + pose proof (minimax_board MAX_DEPTH (setCell board row col OPPONENT)
                                NegInf PosInf false) as Hback.
      destruct (minimax_finite MAX_DEPTH (setCell board row col OPPONENT)
                               NegInf PosInf false (wf_setCell _ _ _ _ Hwf))
        as [z Hz].
      destruct (minimax _ _ _ _ _) as [score back]; cbn [fst snd] in *; subst.
      apply cell_is_true in Hcell.
      destruct (ext_gtb (Fin z) (b_bestScore st)) eqn:Hgt.
      * split; [right|intros _]; cbn [b_bestScore b_move];
          [|eexists; reflexivity].
        repeat split; try (eexists; reflexivity); try lia.
        apply (columnHasEmpty_true _ col row); [|assumption].
        apply Hrows; left; reflexivity.
      * destruct Hleg as [Hn|(Hf & Hm & He)].
        { rewrite Hn in Hgt; discriminate. }
        split; [right|intros _]; cbn [b_bestScore b_move]; auto.
    + destruct (IH st Hb) as [Hl Hfin]; [intros; apply Hrows; now right|assumption|].
      split; [assumption|].
      intros [Hf|(r & [<-|Hr] & He)]; [apply Hfin; now left|congruence|].
      apply Hfin; right; eauto.
Qed.

Lemma bestCols_legal (board : Board) (cols : list Z) (st : Best) :
  wf_board board -> b_board st = board ->
  (forall col, In col cols -> 0 <= col < COLS) ->
  Legal board st ->
  let st' := fold_left (fun st col => bestRows col (downfrom ROWS) st) cols st in
  Legal board st' /\
  (finite (b_bestScore st) \/
   (exists col, In col cols /\ columnHasEmpty board col = true) ->
   finite (b_bestScore st')).
Proof.
  intros Hwf; revert st; induction cols as [|col cols IH];
    intros st Hb Hcols Hleg; cbn [fold_left].
  - split; [assumption|].
    intros [Hf|(c & [] & _)]; assumption.
  - destruct (bestRows_legal board col (downfrom ROWS) st Hwf Hb) as [Hl Hfin];
      [apply Hcols; now left|intros r Hr; now apply in_downfrom|assumption|].
    destruct (IH (bestRows col (downfrom ROWS) st)) as [Hl' Hfin'];
      [now rewrite bestRows_board|intros; apply Hcols; now right|assumption|].
    split; [assumption|].
    intros [Hf|(c & [<-|Hc] & He)]; apply Hfin'.
    + left; apply Hfin; now left.
    + left; apply Hfin; right; now apply columnHasEmpty_row.
    + right; eauto.
Qed.

(** On a well-formed board with a legal column, the minimax branch of
    [bestMove] returns a legal column and hands the board back unchanged. *)
Lemma bestMove_hard_legal (env : Env) (board : Board) (difficulty : option string) :
  wf_board board ->
  (exists col, 0 <= col < COLS /\ columnHasEmpty board col = true) ->
  difficulty <> Some "easy"%string ->
  exists move,
    bestMove env board difficulty = Normal (Some move, board) /\
    0 <= move < COLS /\ columnHasEmpty board move = true.
Proof.
  intros Hwf (col & Hcol & He) Hd.
  unfold bestMove; rewrite (isEasy_false _ Hd); cbv zeta.
  rewrite bestCols_board; cbn [b_board].
  destruct (bestCols_legal board (upto COLS) (mkBest board NegInf (-1)) Hwf eq_refl)
    as [Hleg Hfin]; [intros c Hc; now apply in_upto|now left|].
  eexists; split; [reflexivity|].
  destruct Hleg as [Hn|(_ & Hm & Hc)]; [|split; assumption].
  exfalso; refine (finite_not_NegInf _ (Hfin _) Hn).
  right; exists col; split; [now apply in_upto|assumption].
Qed.

Lemma lowestEmpty_place (board : Board) (col : Z) (player : Cell) (rows : list Z) :
  (exists row, In row rows /\ cell_is (cellAt board row col) EMPTY = true) ->
  exists row, lowestEmpty board col rows = Some row /\ In row rows /\
              cellAt board row col = Some EMPTY /\
              placeRows board col player rows = setCell board row col player.
Proof.
  induction rows as [|row rows IH]; intros (r & Hin & He); [destruct Hin|].
  cbn [lowestEmpty placeRows].
  destruct (cell_is (cellAt board row col) EMPTY) eqn:Hcell.
  - exists row; repeat split; [now left|now apply cell_is_true].
  - destruct Hin as [<-|Hin]; [congruence|].
    destruct IH as (row' & Hl & Hin' & Hc & Hp); [eauto|].
    exists row'; repeat split; auto; now right.
Qed.

(** ** The boards at which the game asks for a move *)

Lemma nth_error_setNth {A : Type} (l : list A) (n m : nat) (v : A) :
  nth_error (setNth n v l) m
  = if Nat.eqb n m then option_map (fun _ => v) (nth_error l m) else nth_error l m.
Proof.
  revert n m; induction l as [|h t IH]; intros [|n] [|m]; simpl;
    try reflexivity; try apply IH.
  now destruct (Nat.eqb n m).
Qed.

(** A write changes no cell to anything but the value written. *)
Lemma cellAt_setCell (board : Board) (r c r' c' : Z) (v : Cell) :
  cellAt (setCell board r c v) r' c' = cellAt board r' c' \/
  cellAt (setCell board r c v) r' c' = Some v.
Proof.
  unfold setCell.
  destruct ((r <? 0) || (c <? 0)); [now left|].
  destruct (nth_error board (Z.to_nat r)) as [cells|] eqn:Hr; [|now left].
  unfold cellAt.
  destruct ((r' <? 0) || (c' <? 0)); [now left|].
  rewrite nth_error_setNth.
  destruct (Nat.eqb_spec (Z.to_nat r) (Z.to_nat r')) as [Heq|Hne]; [|now left].
  rewrite <- Heq, Hr; cbn [option_map].
  rewrite nth_error_setNth.
  destruct (Nat.eqb (Z.to_nat c) (Z.to_nat c')); [|now left].
  destruct (nth_error cells (Z.to_nat c')); cbn [option_map]; [now right|now left].
Qed.

Lemma placeRows_cases (board : Board) (col : Z) (player : Cell) (rows : list Z) :
  placeRows board col player rows = board \/
  exists row, placeRows board col player rows = setCell board row col player.
Proof.
  induction rows as [|row rows IH]; cbn [placeRows]; [now left|].
  destruct (cell_is _ EMPTY); [right; eauto|exact IH].
Qed.

Lemma wf_placePiece (board : Board) (col : Z) (player : Cell) :
  wf_board board -> wf_board (placePiece col player board).
Proof.
  intros Hwf; unfold placePiece.
  destruct (placeRows_cases board col player (downfrom ROWS)) as [->|[row ->]];
    [assumption|now apply wf_setCell].
Qed.

Section Monotone.

Variables board board' : Board.
Variable player : Cell.
Hypothesis no_new_piece :
  forall r c, cell_is (cellAt board' r c) player = true ->
              cell_is (cellAt board r c) player = true.

Lemma checkDirection_monotone (row col dRow dCol : Z) :
  checkDirection board' row col player dRow dCol = true ->
  checkDirection board row col player dRow dCol = true.
Proof.
  unfold checkDirection; rewrite !forallb_forall.
  intros H i Hi; specialize (H i Hi); cbv zeta in *.
  apply negb_true_iff in H; apply negb_true_iff.
  repeat (apply orb_false_iff in H as [H ?]).
  repeat (apply orb_false_iff; split); try assumption.
  apply negb_false_iff; apply no_new_piece; now apply negb_false_iff.
Qed.

Lemma checkWin_monotone :
  cell_is (checkWin board' player) player = true ->
  cell_is (checkWin board player) player = true.
Proof.
  unfold checkWin.
  match goal with
  | |- cell_is (if ?b then _ else _) _ = _ -> _ => destruct b eqn:Hwin
  end; [intros _|discriminate].
  match goal with
  | |- cell_is (if ?b then _ else _) _ = _ => replace b with true
  end; [exact (Cell_eqb_refl player)|symmetry].
  apply existsb_exists in Hwin as (row & Hrow & Hwin).
  apply existsb_exists in Hwin as (col & Hcol & Hwin).
  apply existsb_exists; exists row; split; [assumption|].
  apply existsb_exists; exists col; split; [assumption|].
  apply andb_true_iff in Hwin as [Hcell Hdir].
  apply andb_true_iff; split; [now apply no_new_piece|].
  repeat (apply orb_true_iff in Hdir as [Hdir|Hdir]);
    repeat (apply orb_true_iff;
            first [right; now apply checkDirection_monotone|left]);
    now apply checkDirection_monotone.
Qed.

End Monotone.

(** A piece of the machine gives the human no four-in-a-row. *)
Lemma checkWin_after_opponent (board : Board) (col : Z) :
  cell_is (checkWin board PLAYER) PLAYER = false ->
  cell_is (checkWin (placePiece col OPPONENT board) PLAYER) PLAYER = false.
Proof.
  intros Hno.
  destruct (cell_is (checkWin (placePiece col OPPONENT board) PLAYER) PLAYER)
    eqn:Hwin; [|reflexivity].
  rewrite <- Hno; symmetry.
  apply (checkWin_monotone board (placePiece col OPPONENT board) PLAYER);
    [|assumption].
  intros r c; unfold placePiece.
  destruct (placeRows_cases board col OPPONENT (downfrom ROWS)) as [->|[row ->]];
    [trivial|].
  destruct (cellAt_setCell board row col r c OPPONENT) as [->| ->];
    [trivial|discriminate].
Qed.

(** Every board at which the game asks for a move is well formed, holds no
    four-in-a-row of the human and is not full: the hypotheses of
    [full_column_forfeits_turn] hold throughout a game. *)
Lemma prompted_in_progress (env : Env) (board : Board) :
  prompted env board ->
  wf_board board /\
  cell_is (checkWin board PLAYER) PLAYER = false /\
  isBoardFull board = false.
Proof.
  induction 1 as [|board board' column out Hprev (Hwf & Hwin & Hfull) Hturn].
  - split; [split; [reflexivity|repeat constructor]|split; reflexivity].
  - unfold playGame in Hturn.
    destruct column as [column|]; [|injection Hturn as <- _; auto].
    destruct ((column >=? 0) && (column <? COLS));
      [|injection Hturn as <- _; auto].
    unfold afterHumanPiece in Hturn.
    pose proof (wf_placePiece board column PLAYER Hwf) as Hwf1.
    destruct (cell_is (checkWin (placePiece column PLAYER board) PLAYER) PLAYER)
      eqn:Hwin1; [discriminate|].
    destruct (isBoardFull (placePiece column PLAYER board)); [discriminate|].
    destruct (bestMove_hard_board env (placePiece column PLAYER board) None)
      as [move Hbest]; [discriminate|].
    rewrite Hbest in Hturn.
    cbv zeta in Hturn.
    match type of Hturn with
    | context [cell_is (checkWin ?b OPPONENT) OPPONENT] =>
        assert (Hb : wf_board b /\ cell_is (checkWin b PLAYER) PLAYER = false)
    end.
    { destruct move as [col|]; [|now split].
      split; [now apply wf_placePiece|now apply checkWin_after_opponent]. }
    destruct (cell_is (checkWin _ OPPONENT) OPPONENT); [discriminate|].
    match type of Hturn with
    | context [isBoardFull ?b] => destruct (isBoardFull b) eqn:Hfull2
    end; [discriminate|].
    injection Hturn as <- _; tauto.
Qed.

(** ** A full column chosen by the human (C10) *)



(** ** The fallback of the ['easy'] branch (C3) *)

(** C3, the code at a failing input. On [lastCellBoard] only column 0 is
    legal. With any function bound to [heuristicEasy] the search empties its
    open list without a win, and [bestMove] returns the random draw whatever
    it is: for the draw 3 it returns 3, a column with no [EMPTY] cell. As the
    program is written the call throws instead of returning a column. *)
Theorem bestMove_easy_fallback_full_column :
  columnHasEmpty lastCellBoard 0 = true /\
  columnHasEmpty lastCellBoard 3 = false /\
  (forall h r, aStarSearch (mkEnv (Some h) r 3) lastCellBoard OPPONENT = Normal None) /\
  (forall h r, bestMove (mkEnv (Some h) r 3) lastCellBoard (Some "easy"%string)
               = Normal (Some r, lastCellBoard)) /\
  bestMove (mkEnv (Some heuristic) 3 3) lastCellBoard (Some "easy"%string)
  = Normal (Some 3, lastCellBoard) /\
  bestMove (asWritten 3 3) lastCellBoard (Some "easy"%string)
  = Throw (ReferenceError "heuristicEasy").
Proof.
  assert (Hsearch : forall h r,
             aStarSearch (mkEnv (Some h) r 3) lastCellBoard OPPONENT = Normal None)
    by (intros; vm_compute; reflexivity).
  assert (Hbest : forall h r,
             bestMove (mkEnv (Some h) r 3) lastCellBoard (Some "easy"%string)
             = Normal (Some r, lastCellBoard)).
  { intros h r; unfold bestMove.
    change (isEasy (Some "easy"%string)) with true; cbv iota.
    now rewrite Hsearch. }
  repeat split; try reflexivity; auto.
Qed.


(** ** Routes do not change what the search computes *)

Lemma insertByFRoute_erase (n : RNode) (l : list RNode) :
  map fst (insertByFRoute n l) = insertByF (fst n) (map fst l).
Proof.
  induction l as [|m l IH]; cbn [insertByFRoute insertByF map]; [reflexivity|].
  destruct (n_f (fst n) <? n_f (fst m)); cbn [map]; [reflexivity|].
  now rewrite IH.
Qed.

Lemma sortByFRoute_erase (l : list RNode) :
  map fst (sortByFRoute l) = sortByF (map fst l).
Proof.
  unfold sortByFRoute, sortByF.
  assert (Hgen : forall sorted : list RNode,
             map fst (fold_left (fun sorted n => insertByFRoute n sorted) l sorted)
             = fold_left (fun sorted n => insertByF n sorted) (map fst l)
                         (map fst sorted)).
  { induction l as [|n l IH]; intros sorted; cbn [fold_left map]; [reflexivity|].
    now rewrite IH, insertByFRoute_erase. }
  apply (Hgen []).
Qed.

Lemma findBoardRoute_erase (l : list RNode) (board : Board) :
  option_map fst (findBoardRoute l board) = findBoard (map fst l) board.
Proof.
  unfold findBoardRoute, findBoard.
  induction l as [|n l IH]; cbn [find map]; [reflexivity|].
  destruct (Board_eqb (n_board (fst n)) board); [reflexivity|exact IH].
Qed.

Lemma considerSuccessorRoute_erase (cur : RNode) (closedList openList : list RNode)
    (successor : Board * Z) :
  map fst (considerSuccessorRoute cur closedList openList successor)
  = considerSuccessor (fst cur) (map fst closedList) (map fst openList) successor.
Proof.
  unfold considerSuccessorRoute, considerSuccessor.
  rewrite <- !findBoardRoute_erase.
  destruct (findBoardRoute closedList (fst successor)); cbn [option_map];
    [reflexivity|].
  destruct (findBoardRoute openList (fst successor)) as [existing|];
    cbn [option_map]; [destruct (_ <? _)|]; now rewrite ?map_app.
Qed.

Lemma considerSuccessorsRoute_erase (cur : RNode) (closedList : list RNode)
    (successors : list (Board * Z)) (openList : list RNode) :
  map fst (fold_left (considerSuccessorRoute cur closedList) successors openList)
  = fold_left (considerSuccessor (fst cur) (map fst closedList)) successors
              (map fst openList).
Proof.
  revert openList; induction successors as [|s successors IH]; intros openList;
    cbn [fold_left]; [reflexivity|].
  now rewrite IH, considerSuccessorRoute_erase.
Qed.

Lemma aStarLoopRoute_erase (fuel : nat) (player : Cell) :
  forall openList closedList,
    eraseRoute (aStarLoopRoute fuel player openList closedList)
    = aStarLoop fuel player (map fst openList) (map fst closedList).
Proof.
  induction fuel as [|fuel IH]; intros openList closedList;
    cbn [aStarLoopRoute aStarLoop]; [reflexivity|].
  rewrite <- sortByFRoute_erase.
  destruct (sortByFRoute openList) as [|cur rest]; cbn [map]; [reflexivity|].
  destruct (truthy (checkWin (n_board (fst cur)) OPPONENT)); [reflexivity|].
  rewrite IH, considerSuccessorsRoute_erase, map_app.
  reflexivity.
Qed.

Lemma aStarSearchRoute_erase (env : Env) (board : Board) (player : Cell) :
  eraseRoute (aStarSearchRoute env board player) = aStarSearch env board player.
Proof.
  unfold aStarSearchRoute, aStarSearch.
  destruct (heuristicEasy env) as [h|]; [|reflexivity].
  apply aStarLoopRoute_erase.
Qed.

(** ** The move recorded on a node (C2) *)

Lemma successorRows_drop (board : Board) (player : Cell) (col : Z)
    (rows : list Z) (successors : list (Board * Z)) :
  successorRows board player col rows successors = successors \/
  successorRows board player col rows successors
  = successors ++ [(placeRows board col player rows, col)].
Proof.
  induction rows as [|row rows IH]; cbn [successorRows placeRows]; [now left|].
  destruct (cell_is (cellAt board row col) EMPTY); [now right|exact IH].
Qed.

(** Every successor is the board after a drop in the column it records. *)
Lemma generateSuccessors_drop (board : Board) (player : Cell) :
  Forall (fun s => fst s = placePiece (snd s) player board)
         (generateSuccessors board player).
Proof.
  unfold generateSuccessors.
  assert (Hnil : Forall (fun s : Board * Z => fst s = placePiece (snd s) player board) [])
    by constructor.
  revert Hnil; generalize (@nil (Board * Z)) as acc; generalize (upto COLS) as cols.
  induction cols as [|col cols IH]; intros acc Hacc; cbn [fold_left]; [assumption|].
  apply IH.
  destruct (successorRows_drop board player col (downfrom ROWS) acc) as [->| ->];
    [assumption|].
  apply Forall_app; split; [assumption|].
  constructor; [reflexivity|constructor].
Qed.

Lemma replay_snoc (board : Board) (player : Cell) (route : list Z) (col : Z) :
  replay board player (route ++ [col])
  = placePiece col player (replay board player route).
Proof. unfold replay; now rewrite fold_left_app. Qed.

Lemma lastPly_snoc (route : list Z) (col : Z) : lastPly (route ++ [col]) = Some col.
Proof. unfold lastPly; now rewrite rev_unit. Qed.

Section Routed.

Variable board : Board.
Variable player : Cell.

Lemma insertByFRoute_routed (n : RNode) (l : list RNode) :
  routed board player n -> Forall (routed board player) l ->
  Forall (routed board player) (insertByFRoute n l).
Proof.
  intros Hn Hl; induction Hl as [|m l Hm Hl IH]; cbn [insertByFRoute].
  - constructor; [assumption|constructor].
  - destruct (_ <? _);
      [constructor; [assumption|constructor; assumption]
      |constructor; assumption].
Qed.

Lemma sortByFRoute_routed (l : list RNode) :
  Forall (routed board player) l -> Forall (routed board player) (sortByFRoute l).
Proof.
  unfold sortByFRoute.
  assert (Hnil : Forall (routed board player) []) by constructor.
  revert Hnil; generalize (@nil RNode) as sorted.
  induction l as [|n l IH]; intros sorted Hs Hl; cbn [fold_left]; [assumption|].
  inversion Hl; subst.
  apply IH; [apply insertByFRoute_routed|]; assumption.
Qed.

Lemma considerSuccessorRoute_routed (cur : RNode) (closedList openList : list RNode)
    (successor : Board * Z) :
  routed board player cur ->
  fst successor = placePiece (snd successor) player (n_board (fst cur)) ->
  Forall (routed board player) openList ->
  Forall (routed board player)
         (considerSuccessorRoute cur closedList openList successor).
Proof.
  intros [Hb Hm] Hs Hopen; unfold considerSuccessorRoute.
  assert (Hnew : routed board player
                   (mkNode (fst successor) (Some (snd successor))
                           (n_g (fst cur) + 1) None (n_g (fst cur) + 1),
                    snd cur ++ [snd successor])).
  { split; cbn [fst snd n_board n_move].
    - now rewrite replay_snoc, <- Hb.
    - now rewrite lastPly_snoc. }
  destruct (findBoardRoute closedList (fst successor)); [assumption|].
  destruct (findBoardRoute openList (fst successor)); [destruct (_ <? _)|];
    try assumption; apply Forall_app; split; auto.
Qed.

Lemma considerSuccessorsRoute_routed (cur : RNode) (closedList : list RNode)
    (successors : list (Board * Z)) (openList : list RNode) :
  routed board player cur ->
  Forall (fun s => fst s = placePiece (snd s) player (n_board (fst cur))) successors ->
  Forall (routed board player) openList ->
  Forall (routed board player)
         (fold_left (considerSuccessorRoute cur closedList) successors openList).
Proof.
  intros Hcur Hs; revert openList.
  induction Hs as [|s successors Hs Hrest IH]; intros openList Hopen;
    cbn [fold_left]; [assumption|].
  apply IH, considerSuccessorRoute_routed; assumption.
Qed.

(** The node the loop returns is routed and its board holds a four-in-a-row
    of the machine. *)
Lemma aStarLoopRoute_routed (fuel : nat) :
  forall openList closedList rn,
    Forall (routed board player) openList ->
    aStarLoopRoute fuel player openList closedList = Normal (Some rn) ->
    routed board player rn /\
    truthy (checkWin (n_board (fst rn)) OPPONENT) = true.
Proof.
  induction fuel as [|fuel IH]; intros openList closedList rn Hopen;
    cbn [aStarLoopRoute]; [discriminate|].
  pose proof (sortByFRoute_routed openList Hopen) as Hsorted.
  destruct (sortByFRoute openList) as [|cur rest]; [discriminate|].
  inversion Hsorted as [|? ? Hcur Hrest]; subst.
  destruct (truthy (checkWin (n_board (fst cur)) OPPONENT)) eqn:Hwin.
  - intros [= <-]; split; assumption.
  - apply IH.
    apply considerSuccessorsRoute_routed; try assumption.
    apply generateSuccessors_drop.
Qed.

End Routed.


(** X20. With a function bound to [heuristicEasy] (the search returns nothing
    otherwise), whenever the search returns a node: the node's board holds a
    four-in-a-row of the machine and is the current board after the plies of
    the route by which the search produced the node, and the ['easy'] branch
    of [bestMove] returns the column of the last ply of that route ([null]
    for the empty route). That is the column of the first ply exactly when
    the first and the last ply of the route are in the same column. *)
Theorem bestMove_easy_returns_last_ply :
  forall env board node route,
    aStarSearchRoute env board OPPONENT = Normal (Some (node, route)) ->
    (exists h, heuristicEasy env = Some h) /\
    aStarSearch env board OPPONENT = Normal (Some node) /\
    truthy (checkWin (n_board node) OPPONENT) = true /\
    n_board node = replay board OPPONENT route /\
    bestMove env board (Some "easy"%string) = Normal (lastPly route, board) /\
    (bestMove env board (Some "easy"%string) = Normal (firstPly route, board)
     <-> firstPly route = lastPly route).
Proof.
  intros env board node route Hfound.
  assert (Hplain : aStarSearch env board OPPONENT = Normal (Some node))
    by (now rewrite <- aStarSearchRoute_erase, Hfound).
  assert (Hr : (exists h, heuristicEasy env = Some h) /\
               routed board OPPONENT (node, route) /\
               truthy (checkWin (n_board node) OPPONENT) = true).
  { unfold aStarSearchRoute in Hfound.
    destruct (heuristicEasy env) as [h|]; [|discriminate].
    split; [now exists h|].
    apply (aStarLoopRoute_routed board OPPONENT _ _ _ _) in Hfound; [exact Hfound|].
    repeat constructor. }
  destruct Hr as (Hbound & [Hb Hm] & Hwin); cbn [fst snd] in Hb, Hm.
  assert (Hbest : bestMove env board (Some "easy"%string)
                  = Normal (lastPly route, board)).
  { unfold bestMove; change (isEasy (Some "easy"%string)) with true; cbv iota.
    now rewrite Hplain, Hm. }
  repeat (split; [assumption|]).
  rewrite Hbest; split; [intros [= ->]; reflexivity|intros ->; reflexivity].
Qed.

Lemma bestMove_easy_returns_last_ply_witness :
  let env := mkEnv (Some heuristic) 0 40 in
  let node := mkNode (replay twoInRowBoard OPPONENT [2; 3]) (Some 3) 2 None 2 in
  aStarSearchRoute env twoInRowBoard OPPONENT = Normal (Some (node, [2; 3])) /\
  (exists h, heuristicEasy env = Some h) /\
  aStarSearch env twoInRowBoard OPPONENT = Normal (Some node) /\
  truthy (checkWin (n_board node) OPPONENT) = true /\
  n_board node = replay twoInRowBoard OPPONENT [2; 3] /\
  bestMove env twoInRowBoard (Some "easy"%string)
  = Normal (lastPly [2; 3], twoInRowBoard) /\
  (bestMove env twoInRowBoard (Some "easy"%string)
   = Normal (firstPly [2; 3], twoInRowBoard)
   <-> firstPly [2; 3] = lastPly [2; 3]).
Proof.
  intros env node.
  assert (Hfound : aStarSearchRoute env twoInRowBoard OPPONENT
                   = Normal (Some (node, [2; 3]))) by (vm_compute; reflexivity).
  split; [exact Hfound|].
  exact (bestMove_easy_returns_last_ply env twoInRowBoard node [2; 3] Hfound).
Defined.

(** * Further properties of the program *)

(** ** What [checkWin] detects *)

Lemma checkDirection_fourAt (board : Board) (row col : Z) (player : Cell)
    (dRow dCol : Z) :
  checkDirection board row col player dRow dCol = true
  <-> fourAt board player row col dRow dCol.
Proof.
  unfold checkDirection, fourAt; rewrite forallb_forall; split.
  - intros H i Hi; specialize (H i (proj2 (in_upto 4 i) Hi)); cbv zeta in H.
    apply negb_true_iff in H.
    repeat (apply orb_false_iff in H as [H ?]).
    repeat match goal with
           | H : negb _ = false |- _ => apply negb_false_iff in H
           | H : cell_is _ _ = true |- _ => apply cell_is_true in H
           | H : (_ <? _) = false |- _ => apply Z.ltb_ge in H
           | H : (_ >=? _) = false |- _ => rewrite Z.geb_leb in H; apply Z.leb_gt in H
           end.
    repeat split; try lia; assumption.
  - intros H i Hi; destruct (H i (proj1 (in_upto 4 i) Hi)) as (Hr & Hc & Hcell).
    cbv zeta; apply negb_true_iff.
    repeat (apply orb_false_iff; split);
      try (apply Z.ltb_ge; lia);
      try (rewrite Z.geb_leb; apply Z.leb_gt; lia).
    apply negb_false_iff, cell_is_true, Hcell.
Qed.

Lemma checkWin_Some (board : Board) (player : Cell) :
  checkWin board player = Some player <->
  exists row col d, In d scannedDirections /\
                    fourAt board player row col (fst d) (snd d).
Proof.
  unfold checkWin.
  match goal with
  | |- (if ?b then _ else _) = _ <-> _ => destruct b eqn:Hscan
  end; split; try discriminate; try reflexivity.
  - intros _.
    apply existsb_exists in Hscan as (row & Hrow & Hscan).
    apply existsb_exists in Hscan as (col & Hcol & Hscan).
    apply andb_true_iff in Hscan as [_ Hdir].
    exists row, col.
    repeat (apply orb_true_iff in Hdir as [Hdir|Hdir]);
      apply checkDirection_fourAt in Hdir;
      [exists (1, 0)|exists (0, 1)|exists (1, 1)|exists (1, -1)];
      (split; [simpl; tauto|exact Hdir]).
  - intros (row & col & d & Hd & Hfour); exfalso.
    assert (Hanchor : 0 <= row < ROWS /\ 0 <= col < COLS /\
                      cellAt board row col = Some player).
    { destruct (Hfour 0) as (Hr & Hc & Hcell); [lia|].
      rewrite !Z.mul_0_l, !Z.add_0_r in *; auto. }
    destruct Hanchor as (Hr & Hc & Hcell).
    apply checkDirection_fourAt in Hfour.
    enough (existsb
              (fun row =>
                 existsb
                   (fun col =>
                      cell_is (cellAt board row col) player &&
                      (checkDirection board row col player 1 0
                       || checkDirection board row col player 0 1
                       || checkDirection board row col player 1 1
                       || checkDirection board row col player 1 (-1)))
                   (upto COLS)) (upto ROWS) = true) by congruence.
    apply existsb_exists; exists row; split; [now apply in_upto|].
    apply existsb_exists; exists col; split; [now apply in_upto|].
    apply andb_true_iff; split; [now apply cell_is_true|].
    destruct Hd as [<-|[<-|[<-|[<-|[]]]]]; cbn [fst snd] in Hfour; rewrite Hfour;
      repeat rewrite orb_true_r; reflexivity.
Qed.

Lemma fourAt_reverse (board : Board) (player : Cell) (row col dRow dCol : Z) :
  fourAt board player row col dRow dCol ->
  fourAt board player (row + 3 * dRow) (col + 3 * dCol) (- dRow) (- dCol).
Proof.
  intros H i Hi; specialize (H (3 - i)).
  replace (row + 3 * dRow + i * - dRow) with (row + (3 - i) * dRow) by ring.
  replace (col + 3 * dCol + i * - dCol) with (col + (3 - i) * dCol) by ring.
  apply H; lia.
Qed.

(** X1. [checkWin(board, player)] returns [player] or [null], and it returns
    [player] exactly when four cells in a line hold [player]: the line may run
    in any of the eight directions from any cell, although the scan tries only
    four directions per cell. *)
Theorem checkWin_detects_every_line :
  forall board player,
    (checkWin board player = Some player \/ checkWin board player = None) /\
    (checkWin board player = Some player <->
     exists row col d, In d allDirections /\
                       fourAt board player row col (fst d) (snd d)).
Proof.
  intros board player; split.
  - unfold checkWin; match goal with |- context [if ?b then _ else _] => destruct b end;
      [now left|now right].
  - rewrite checkWin_Some; split.
    + intros (row & col & d & Hd & Hfour); exists row, col, d; split; [|assumption].
      simpl in *; tauto.
    + intros (row & col & d & Hd & Hfour).
      simpl in Hd.
      destruct Hd as [<-|[<-|[<-|[<-|Hd]]]];
        try (exists row, col; eexists; split; [|exact Hfour]; simpl; tauto).
      apply fourAt_reverse in Hfour.
      destruct Hd as [<-|[<-|[<-|[<-|[]]]]]; cbn [fst snd] in Hfour;
        do 2 eexists;
        [exists (1, 0)|exists (0, 1)|exists (1, 1)|exists (1, -1)];
        (split; [simpl; tauto|exact Hfour]).
Qed.

(** ** Reading a board after a write *)

Lemma cellAt_setCell_same (board : Board) (r c : Z) (v : Cell) :
  cellAt (setCell board r c v) r c = option_map (fun _ => v) (cellAt board r c).
Proof.
  unfold setCell, cellAt.
  destruct ((r <? 0) || (c <? 0)) eqn:Hneg; [reflexivity|].
  destruct (nth_error board (Z.to_nat r)) as [cells|] eqn:Hr;
    rewrite ?Hneg; [|now rewrite Hr].
  rewrite nth_error_setNth, Nat.eqb_refl, Hr; cbn [option_map].
  now rewrite nth_error_setNth, Nat.eqb_refl.
Qed.

Lemma cellAt_setCell_other (board : Board) (r c r' c' : Z) (v : Cell) :
  r <> r' \/ c <> c' ->
  cellAt (setCell board r c v) r' c' = cellAt board r' c'.
Proof.
  intros Hne; unfold setCell.
  destruct ((r <? 0) || (c <? 0)) eqn:Hneg; [reflexivity|].
  apply orb_false_iff in Hneg as [Hr0 Hc0].
  apply Z.ltb_ge in Hr0; apply Z.ltb_ge in Hc0.
  destruct (nth_error board (Z.to_nat r)) as [cells|] eqn:Hr; [|reflexivity].
  unfold cellAt.
  destruct ((r' <? 0) || (c' <? 0)) eqn:Hneg'; [reflexivity|].
  apply orb_false_iff in Hneg' as [Hr0' Hc0'].
  apply Z.ltb_ge in Hr0'; apply Z.ltb_ge in Hc0'.
  rewrite nth_error_setNth.
  destruct (Nat.eqb_spec (Z.to_nat r) (Z.to_nat r')) as [Heq|Hneq]; [|reflexivity].
  rewrite <- Heq, Hr; cbn [option_map].
  rewrite nth_error_setNth.
  destruct (Nat.eqb_spec (Z.to_nat c) (Z.to_nat c')) as [Heqc|Hneqc]; [|reflexivity].
  lia.
Qed.

(** A drop changes no cell that holds, or comes to hold, a side other than
    the one dropped. *)
Lemma placePiece_keeps_side (board : Board) (col : Z) (p q : Cell) :
  p <> q -> q <> EMPTY ->
  forall r c, cell_is (cellAt (placePiece col p board) r c) q
              = cell_is (cellAt board r c) q.
Proof.
  intros Hpq Hq r c; unfold placePiece.
  generalize (downfrom ROWS) as rows.
  induction rows as [|row rows IH]; cbn [placeRows]; [reflexivity|].
  destruct (cell_is (cellAt board row col) EMPTY) eqn:Hcell; [|exact IH].
  apply cell_is_true in Hcell.
  destruct (Z.eq_dec row r) as [->|Hr]; [destruct (Z.eq_dec col c) as [->|Hc]|].
  - rewrite cellAt_setCell_same, Hcell; cbn [option_map cell_is].
    destruct p, q; try reflexivity; congruence.
  - now rewrite cellAt_setCell_other by (right; exact Hc).
  - now rewrite cellAt_setCell_other by (left; exact Hr).
Qed.

Lemma checkWin_cases (board : Board) (player : Cell) :
  (checkWin board player = Some player /\ cell_is (checkWin board player) player = true)
  \/ (checkWin board player = None /\ cell_is (checkWin board player) player = false).
Proof.
  unfold checkWin.
  match goal with |- context [if ?b then _ else _] => destruct b end;
    [left|right]; split; try reflexivity.
  apply Cell_eqb_refl.
Qed.

Lemma checkWin_ext (board board' : Board) (player : Cell) :
  (forall r c, cell_is (cellAt board' r c) player = cell_is (cellAt board r c) player) ->
  checkWin board' player = checkWin board player.
Proof.
  intros Hsame.
  pose proof (checkWin_monotone board board' player) as Hto.
  pose proof (checkWin_monotone board' board player) as Hfrom.
  destruct (checkWin_cases board player) as [[E1 H1]|[E1 H1]],
           (checkWin_cases board' player) as [[E2 H2]|[E2 H2]];
    rewrite E1, E2; try reflexivity; exfalso.
  - apply Hfrom in H1; [congruence|].
    intros r c; now rewrite Hsame.
  - apply Hto in H2; [congruence|].
    intros r c; now rewrite Hsame.
Qed.

(** X2. A drop of one side never changes what [checkWin] reports for the other
    side: a move can neither give the rival a four-in-a-row nor take one
    away. *)
Theorem checkWin_unchanged_by_rival_drop :
  forall board col p q,
    p <> q -> q <> EMPTY ->
    checkWin (placePiece col p board) q = checkWin board q.
Proof.
  intros board col p q Hpq Hq.
  apply checkWin_ext, placePiece_keeps_side; assumption.
Qed.

Lemma checkWin_unchanged_by_rival_drop_witness :
  OPPONENT <> PLAYER /\ PLAYER <> EMPTY /\
  checkWin (placePiece 0 OPPONENT lateBoard) PLAYER = checkWin lateBoard PLAYER.
Proof.
  assert (H1 : OPPONENT <> PLAYER) by discriminate.
  assert (H2 : PLAYER <> EMPTY) by discriminate.
  split; [exact H1|split; [exact H2|]].
  exact (checkWin_unchanged_by_rival_drop lateBoard 0 OPPONENT PLAYER H1 H2).
Defined.

(** ** Successors *)

Lemma lowestEmpty_None (board : Board) (col : Z) (rows : list Z) :
  lowestEmpty board col rows = None <->
  forall row, In row rows -> cell_is (cellAt board row col) EMPTY = false.
Proof.
  induction rows as [|row rows IH]; cbn [lowestEmpty].
  - split; [intros _ ? []|reflexivity].
  - destruct (cell_is (cellAt board row col) EMPTY) eqn:Hcell.
    + split; [discriminate|].
      intros H; specialize (H row (or_introl eq_refl)); congruence.
    + rewrite IH; split; intros H r; [intros [<-|Hr]; auto|intros Hr; apply H; now right].
Qed.

Lemma columnHasEmpty_lowest (board : Board) (col : Z) :
  columnHasEmpty board col = false <-> lowestEmpty board col (downfrom ROWS) = None.
Proof.
  rewrite lowestEmpty_None; split.
  - apply columnHasEmpty_false.
  - intros H.
    destruct (columnHasEmpty board col) eqn:He; [|reflexivity].
    apply columnHasEmpty_row in He as (row & Hin & Hcell).
    rewrite (H row Hin) in Hcell; discriminate.
Qed.

Lemma successorRows_spec (board : Board) (player : Cell) (col : Z)
    (successors : list (Board * Z)) :
  successorRows board player col (downfrom ROWS) successors
  = successors ++ (if columnHasEmpty board col
                   then [(placePiece col player board, col)] else []).
Proof.
  destruct (columnHasEmpty board col) eqn:Hcol.
  - unfold placePiece.
    apply columnHasEmpty_row in Hcol.
    revert Hcol; generalize (downfrom ROWS) as rows.
    induction rows as [|row rows IH]; intros (r & Hin & Hcell); [destruct Hin|].
    cbn [successorRows placeRows].
    destruct (cell_is (cellAt board row col) EMPTY) eqn:Hrow; [reflexivity|].
    apply IH; destruct Hin as [<-|Hin]; [congruence|eauto].
  - rewrite app_nil_r.
    pose proof (columnHasEmpty_false board col Hcol) as Hnone.
    revert Hnone; generalize (downfrom ROWS) as rows.
    induction rows as [|row rows IH]; intros Hnone; cbn [successorRows];
      [reflexivity|].
    rewrite (Hnone row (or_introl eq_refl)).
    apply IH; intros; apply Hnone; now right.
Qed.

Lemma generateSuccessors_spec (board : Board) (player : Cell) :
  generateSuccessors board player
  = map (fun col => (placePiece col player board, col))
        (filter (columnHasEmpty board) (upto COLS)).
Proof.
  unfold generateSuccessors.
  change (map (fun col => (placePiece col player board, col))
              (filter (columnHasEmpty board) (upto COLS)))
    with ([] ++ map (fun col => (placePiece col player board, col))
                    (filter (columnHasEmpty board) (upto COLS))).
  generalize (@nil (Board * Z)) as acc; generalize (upto COLS) as cols.
  induction cols as [|col cols IH]; intros acc; cbn [fold_left filter].
  - now rewrite app_nil_r.
  - rewrite IH, successorRows_spec.
    destruct (columnHasEmpty board col); cbn [map];
      [now rewrite <- app_assoc|now rewrite app_nil_r].
Qed.

(** X7. [generateSuccessors(board, player)] returns one successor for each column
    that has an [EMPTY] cell, in ascending order of the columns and for no
    other column; the successor of a column pairs the column with the board
    after [player]'s drop into it. *)
Theorem generateSuccessors_legal_columns :
  forall board player,
    generateSuccessors board player
    = map (fun col => (placePiece col player board, col))
          (filter (columnHasEmpty board) (upto COLS)).
Proof. exact generateSuccessors_spec. Qed.

(** ** Drops and gravity *)

Lemma downfrom_S (k : nat) :
  downfrom (Z.of_nat (S k)) = Z.of_nat k :: downfrom (Z.of_nat k).
Proof.
  unfold downfrom, upto.
  rewrite !Nat2Z.id, seq_S, map_app, rev_app_distr.
  reflexivity.
Qed.

Lemma lowestEmpty_downfrom (board : Board) (col : Z) (k : nat) (row : Z) :
  lowestEmpty board col (downfrom (Z.of_nat k)) = Some row ->
  0 <= row < Z.of_nat k /\ cellAt board row col = Some EMPTY /\
  forall r, row < r < Z.of_nat k -> cell_is (cellAt board r col) EMPTY = false.
Proof.
  induction k as [|k IH]; [discriminate|].
  rewrite downfrom_S; cbn [lowestEmpty].
  destruct (cell_is (cellAt board (Z.of_nat k) col) EMPTY) eqn:Hcell.
  - intros [= <-]; repeat split; try lia; now apply cell_is_true.
  - intros Hlow; destruct (IH Hlow) as (Hrow & Hempty & Habove).
    repeat split; try lia; [assumption|].
    intros r Hr.
    destruct (Z.eq_dec r (Z.of_nat k)) as [->|Hne]; [assumption|].
    apply Habove; lia.
Qed.

Lemma gravity_iff (board : Board) :
  gravity board = true <->
  forall col row, 0 <= col < COLS -> 0 <= row < ROWS - 1 ->
                  cell_is (cellAt board (row + 1) col) EMPTY = true ->
                  cell_is (cellAt board row col) EMPTY = true.
Proof.
  unfold gravity; rewrite forallb_forall; split.
  - intros H col row Hcol Hrow Hbelow.
    specialize (H col (proj2 (in_upto _ _) Hcol)).
    rewrite forallb_forall in H.
    specialize (H row (proj2 (in_upto _ _) Hrow)).
    rewrite Hbelow, andb_true_r, negb_involutive in H; exact H.
  - intros H col Hcol; apply forallb_forall; intros row Hrow.
    apply in_upto in Hcol; apply in_upto in Hrow.
    specialize (H col row Hcol Hrow).
    destruct (cell_is (cellAt board (row + 1) col) EMPTY);
      [rewrite H; reflexivity|now rewrite andb_false_r].
Qed.

Lemma cell_is_EMPTY_setCell (board : Board) (r0 c0 r c : Z) (p : Cell) :
  p <> EMPTY ->
  cell_is (cellAt (setCell board r0 c0 p) r c) EMPTY = true ->
  (r <> r0 \/ c <> c0) /\ cell_is (cellAt board r c) EMPTY = true.
Proof.
  intros Hp Hcell.
  destruct (Z.eq_dec r0 r) as [->|Hr]; [destruct (Z.eq_dec c0 c) as [->|Hc]|].
  - rewrite cellAt_setCell_same in Hcell.
    destruct (cellAt board r c); cbn [option_map cell_is] in Hcell;
      [destruct p; try discriminate; congruence|discriminate].
  - rewrite cellAt_setCell_other in Hcell by (right; exact Hc).
    split; [right; congruence|assumption].
  - rewrite cellAt_setCell_other in Hcell by (left; exact Hr).
    split; [left; congruence|assumption].
Qed.

Lemma ROWS_nat : ROWS = Z.of_nat 6.
Proof. reflexivity. Qed.

(** A drop keeps gravity, whatever the column. *)
Lemma gravity_placePiece (board : Board) (col : Z) (player : Cell) :
  player <> EMPTY -> gravity board = true ->
  gravity (placePiece col player board) = true.
Proof.
  intros Hp Hg.
  destruct (lowestEmpty board col (downfrom ROWS)) as [row0|] eqn:Hlow.
  - pose proof Hlow as Hlow'.
    rewrite ROWS_nat in Hlow'.
    apply lowestEmpty_downfrom in Hlow' as (Hrow0 & Hempty & Habove).
    rewrite <- ROWS_nat in *.
    assert (Hplace : placePiece col player board = setCell board row0 col player).
    { destruct (lowestEmpty_place board col player (downfrom ROWS))
        as (row' & Hl & _ & _ & Hp').
      - exists row0; split; [now apply in_downfrom|now apply cell_is_true].
      - unfold placePiece; congruence. }
    rewrite Hplace.
    rewrite gravity_iff in Hg; apply gravity_iff.
    intros c r Hc Hr Hbelow.
    apply cell_is_EMPTY_setCell in Hbelow as [Hne Hbelow]; [|assumption].
    specialize (Hg c r Hc Hr Hbelow).
    destruct (Z.eq_dec r row0) as [->|Hr0]; [destruct (Z.eq_dec c col) as [->|Hc0]|].
    + rewrite Habove in Hbelow by lia; discriminate.
    + now rewrite cellAt_setCell_other by (right; congruence).
    + now rewrite cellAt_setCell_other by (left; congruence).
  - apply columnHasEmpty_lowest in Hlow.
    now rewrite placePiece_full.
Qed.

(** X5. A drop into a column with an [EMPTY] cell, on a board that obeys gravity:
    the piece goes to the lowest [EMPTY] cell of the column (every cell below
    it is occupied), no other cell changes, and the new board is well formed
    if the old one was and obeys gravity again. *)
Theorem placePiece_fills_lowest_cell :
  forall board col player,
    gravity board = true -> player <> EMPTY ->
    columnHasEmpty board col = true ->
    exists row,
      0 <= row < ROWS /\
      cellAt board row col = Some EMPTY /\
      (forall r, row < r < ROWS -> cell_is (cellAt board r col) EMPTY = false) /\
      cellAt (placePiece col player board) row col = Some player /\
      (forall r c, r <> row \/ c <> col ->
                   cellAt (placePiece col player board) r c = cellAt board r c) /\
      (wf_board board -> wf_board (placePiece col player board)) /\
      gravity (placePiece col player board) = true.
Proof.
  intros board col player Hg Hp Hcol.
  destruct (lowestEmpty_place board col player (downfrom ROWS)
              (columnHasEmpty_row _ _ Hcol)) as (row & Hlow & Hin & Hempty & Hplace).
  fold (placePiece col player board) in Hplace.
  rewrite ROWS_nat in Hlow.
  apply lowestEmpty_downfrom in Hlow as (Hrow & _ & Habove).
  rewrite <- ROWS_nat in *.
  exists row.
  split; [exact Hrow|].
  split; [exact Hempty|].
  split; [exact Habove|].
  split; [rewrite Hplace, cellAt_setCell_same, Hempty; reflexivity|].
  split; [|split; [apply wf_placePiece|now apply gravity_placePiece]].
  intros r c Hne; rewrite Hplace.
  apply cellAt_setCell_other; destruct Hne; [left|right]; congruence.
Qed.

Lemma placePiece_fills_lowest_cell_witness :
  gravity lateBoard = true /\ PLAYER <> EMPTY /\
  columnHasEmpty lateBoard 6 = true /\
  exists row,
    0 <= row < ROWS /\
    cellAt lateBoard row 6 = Some EMPTY /\
    (forall r, row < r < ROWS -> cell_is (cellAt lateBoard r 6) EMPTY = false) /\
    cellAt (placePiece 6 PLAYER lateBoard) row 6 = Some PLAYER /\
    (forall r c, r <> row \/ c <> 6 ->
                 cellAt (placePiece 6 PLAYER lateBoard) r c = cellAt lateBoard r c) /\
    (wf_board lateBoard -> wf_board (placePiece 6 PLAYER lateBoard)) /\
    gravity (placePiece 6 PLAYER lateBoard) = true.
Proof.
  assert (Hp : PLAYER <> EMPTY) by discriminate.
  split; [reflexivity|split; [exact Hp|split; [reflexivity|]]].
  exact (placePiece_fills_lowest_cell lateBoard 6 PLAYER eq_refl Hp eq_refl).
Defined.

(** ** A full board *)

Lemma isBoardFull_top (board : Board) :
  wf_board board ->
  (isBoardFull board = true <->
   forall col, 0 <= col < COLS -> cell_is (cellAt board 0 col) EMPTY = false).
Proof.
  intros Hwf; split.
  - intros Hfull col Hcol.
    unfold isBoardFull in Hfull; unfold cellAt.
    replace ((0 <? 0) || (col <? 0)) with false
      by (symmetry; apply orb_false_iff; split; apply Z.ltb_ge; lia).
    change (Z.to_nat 0) with 0%nat.
    destruct (nth_error board 0) as [cells|]; [|reflexivity].
    destruct (nth_error cells (Z.to_nat col)) as [x|] eqn:Hx; [|reflexivity].
    rewrite forallb_forall in Hfull.
    apply nth_error_In in Hx; apply Hfull in Hx.
    now apply negb_true_iff in Hx.
  - intros Htop.
    destruct (isBoardFull board) eqn:Hfull; [reflexivity|].
    destruct (not_full_has_empty board Hwf Hfull) as (col & Hcol & Hcell).
    apply cell_is_true in Hcell; rewrite (Htop col Hcol) in Hcell; discriminate.
Qed.

Lemma gravity_empty_rises (board : Board) (col : Z) (k : nat) :
  gravity board = true -> 0 <= col < COLS -> Z.of_nat k < ROWS ->
  cell_is (cellAt board (Z.of_nat k) col) EMPTY = true ->
  cell_is (cellAt board 0 col) EMPTY = true.
Proof.
  intros Hg Hcol; rewrite gravity_iff in Hg.
  induction k as [|k IH]; intros Hk Hcell; [exact Hcell|].
  apply IH; [lia|].
  apply (Hg col (Z.of_nat k) Hcol); [lia|].
  now replace (Z.of_nat k + 1) with (Z.of_nat (S k)) by lia.
Qed.

(** X3. On a well-formed board that obeys gravity, [isBoardFull] (a look at the
    top row) is true exactly when no column has an [EMPTY] cell. *)
Theorem isBoardFull_iff_no_legal_column :
  forall board,
    wf_board board -> gravity board = true ->
    (isBoardFull board = true <->
     forall col, 0 <= col < COLS -> columnHasEmpty board col = false).
Proof.
  intros board Hwf Hg; rewrite (isBoardFull_top board Hwf); split.
  - intros Htop col Hcol.
    destruct (columnHasEmpty board col) eqn:He; [|reflexivity].
    apply columnHasEmpty_row in He as (row & Hin & Hcell).
    apply in_downfrom in Hin.
    rewrite <- (Htop col Hcol); symmetry.
    apply (gravity_empty_rises board col (Z.to_nat row) Hg Hcol); [lia|].
    now rewrite Z2Nat.id by lia.
  - intros Hnone col Hcol.
    destruct (cell_is (cellAt board 0 col) EMPTY) eqn:Hcell; [|reflexivity].
    apply cell_is_true in Hcell.
    rewrite <- (Hnone col Hcol); symmetry.
    apply (columnHasEmpty_true board col 0); [unfold ROWS; lia|assumption].
Qed.

Lemma isBoardFull_iff_no_legal_column_witness :
  wf_board lateBoard /\ gravity lateBoard = true /\
  (isBoardFull lateBoard = true <->
   forall col, 0 <= col < COLS -> columnHasEmpty lateBoard col = false).
Proof.
  assert (Hwf : wf_board lateBoard) by (split; [reflexivity|repeat constructor]).
  split; [exact Hwf|split; [reflexivity|]].
  exact (isBoardFull_iff_no_legal_column lateBoard Hwf eq_refl).
Defined.

(** ** Columns outside the grid *)

Lemma cellAt_outside (board : Board) (r c : Z) :
  wf_board board -> c < 0 \/ COLS <= c -> cellAt board r c = None.
Proof.
  intros [_ Hrows] Hc; unfold cellAt.
  destruct ((r <? 0) || (c <? 0)) eqn:Hneg; [reflexivity|].
  apply orb_false_iff in Hneg as [_ Hc0]; apply Z.ltb_ge in Hc0.
  destruct (nth_error board (Z.to_nat r)) as [cells|] eqn:Hr; [|reflexivity].
  apply nth_error_None.
  apply nth_error_In in Hr; rewrite Forall_forall in Hrows.
  rewrite (Hrows cells Hr); unfold COLS in *; lia.
Qed.

(** X6. [placePiece] with a column outside [0, COLS), such as the [-1] that
    [bestMove] returns when it finds no [EMPTY] cell, places nothing: on a
    well-formed board it returns the board unchanged and writes outside no
    row. *)
Theorem placePiece_outside_grid :
  forall board col player,
    wf_board board -> col < 0 \/ COLS <= col ->
    placePiece col player board = board.
Proof.
  intros board col player Hwf Hcol.
  apply placePiece_full.
  unfold columnHasEmpty.
  destruct (existsb _ _) eqn:He; [|reflexivity].
  apply existsb_exists in He as (row & _ & Hcell).
  rewrite (cellAt_outside board row col Hwf Hcol) in Hcell; discriminate.
Qed.

Lemma placePiece_outside_grid_witness :
  wf_board lateBoard /\ (-1 < 0 \/ COLS <= -1) /\
  placePiece (-1) OPPONENT lateBoard = lateBoard.
Proof.
  assert (Hwf : wf_board lateBoard) by (split; [reflexivity|repeat constructor]).
  assert (Hcol : -1 < 0 \/ COLS <= -1) by (left; lia).
  split; [exact Hwf|split; [exact Hcol|]].
  exact (placePiece_outside_grid lateBoard (-1) OPPONENT Hwf Hcol).
Defined.

(** ** The size and the sign of the scores *)

(** Follow the two [if] chains of [scoreWindow] and turn every test taken or
    refused into arithmetic. *)
Ltac score_cases :=
  repeat match goal with
         | |- context [if ?c then _ else _] => destruct c eqn:?
         end;
  repeat match goal with
         | H : _ && _ = true |- _ => apply andb_true_iff in H; destruct H
         | H : _ && _ = false |- _ => apply andb_false_iff in H
         | H : (_ =? _) = true |- _ => apply Z.eqb_eq in H
         | H : context [(_ =? _) = false] |- _ => rewrite !Z.eqb_neq in H
         end;
  lia.

Lemma scoreWindow_range (cnt : Counts) : -100 <= scoreWindow 0 cnt <= 100.
Proof.
  unfold scoreWindow.
  score_cases.
Qed.

Lemma sum_range (f : Z * Z -> Z) (ds : list (Z * Z)) (m : Z) :
  (forall d, - m <= f d <= m) ->
  - (m * Z.of_nat (length ds)) <= fold_right Z.add 0 (map f ds)
  <= m * Z.of_nat (length ds).
Proof.
  intros Hf; induction ds as [|d ds IH]; cbn [map fold_right length]; [lia|].
  specialize (Hf d); lia.
Qed.

Lemma evaluateLine_range (board : Board) (row col : Z) (player : Cell) :
  -400 <= evaluateLine board row col player <= 400.
Proof.
  unfold evaluateLine; rewrite evaluateLine_sum_from.
  pose proof (sum_range (windowDelta board row col player) directions 100
                (fun d => scoreWindow_range _)) as H.
  change (Z.of_nat (length directions)) with 4 in H; lia.
Qed.

Lemma heuristicRow_range (board : Board) (row : Z) (cols : list Z) (score : Z) :
  score - 400 * Z.of_nat (length cols)
  <= fold_left (heuristicCell board row) cols score
  <= score + 400 * Z.of_nat (length cols).
Proof.
  revert score; induction cols as [|col cols IH]; intros score;
    cbn [fold_left length]; [lia|].
  specialize (IH (heuristicCell board row score col)).
  assert (score - 400 <= heuristicCell board row score col <= score + 400).
  { unfold heuristicCell.
    pose proof (evaluateLine_range board row col OPPONENT).
    pose proof (evaluateLine_range board row col PLAYER).
    destruct (cell_is _ OPPONENT); [lia|destruct (cell_is _ PLAYER); lia]. }
  lia.
Qed.

Lemma heuristic_within (board : Board) : -16800 <= heuristic board <= 16800.
Proof.
  unfold heuristic.
  assert (Hgen : forall rows score,
             score - 2800 * Z.of_nat (length rows)
             <= fold_left (fun score row =>
                             fold_left (heuristicCell board row) (upto COLS) score)
                          rows score
             <= score + 2800 * Z.of_nat (length rows)).
  { induction rows as [|row rows IH]; intros score; cbn [fold_left length]; [lia|].
    specialize (IH (fold_left (heuristicCell board row) (upto COLS) score)).
    pose proof (heuristicRow_range board row (upto COLS) score) as Hrow.
    change (Z.of_nat (length (upto COLS))) with 7 in Hrow; lia. }
  specialize (Hgen (upto ROWS) 0).
  change (Z.of_nat (length (upto ROWS))) with 6 in Hgen; lia.
Qed.

(** X8. The scores stay small: [evaluateLine] lies within 400 of zero and
    [heuristic] within 16800, on every board, so no score leaves the range in
    which JavaScript numbers are exact integers. *)
Theorem heuristic_range :
  forall board,
    -16800 <= heuristic board <= 16800 /\
    forall row col player, -400 <= evaluateLine board row col player <= 400.
Proof.
  intros board; split; [apply heuristic_within|intros; apply evaluateLine_range].
Qed.

Lemma countStep_grows board row col player d cnt i :
  countPlayer cnt <= countPlayer (countStep board row col player d cnt i) /\
  countOpponent cnt <= countOpponent (countStep board row col player d cnt i).
Proof.
  unfold countStep; cbv zeta.
  destruct (_ && _ && _ && _); [|lia].
  destruct (cell_is _ player); [|destruct (cell_is _ (rival player))]; simpl; lia.
Qed.

Lemma countSteps_grow board row col player d (l : list Z) (cnt : Counts) :
  countPlayer cnt
  <= countPlayer (fold_left (countStep board row col player d) l cnt) /\
  countOpponent cnt
  <= countOpponent (fold_left (countStep board row col player d) l cnt).
Proof.
  revert cnt; induction l as [|i l IH]; intros cnt; cbn [fold_left]; [lia|].
  pose proof (countStep_grows board row col player d cnt i).
  pose proof (IH (countStep board row col player d cnt i)).
  lia.
Qed.

Lemma rival_differs (player : Cell) : rival player <> player.
Proof. destruct player; discriminate. Qed.

Lemma countStep_sees board row col player d (cnt : Counts) (i : Z) :
  onGrid row col d i = true ->
  (cellAt board (row + i * fst d) (col + i * snd d) = Some player ->
   countPlayer (countStep board row col player d cnt i) = countPlayer cnt + 1) /\
  (cellAt board (row + i * fst d) (col + i * snd d) = Some (rival player) ->
   countOpponent (countStep board row col player d cnt i) = countOpponent cnt + 1).
Proof.
  intros Hgrid; unfold onGrid in Hgrid; cbv zeta in Hgrid.
  unfold countStep; cbv zeta; rewrite Hgrid.
  split; intros ->; cbn [cell_is].
  - now rewrite Cell_eqb_refl.
  - replace (Cell_eqb (rival player) player) with false
      by (destruct player; reflexivity).
    now rewrite Cell_eqb_refl.
Qed.

Lemma countSteps_sees board row col player d (l : list Z) (cnt : Counts) (i : Z) :
  In i l -> onGrid row col d i = true ->
  (cellAt board (row + i * fst d) (col + i * snd d) = Some player ->
   countPlayer cnt + 1
   <= countPlayer (fold_left (countStep board row col player d) l cnt)) /\
  (cellAt board (row + i * fst d) (col + i * snd d) = Some (rival player) ->
   countOpponent cnt + 1
   <= countOpponent (fold_left (countStep board row col player d) l cnt)).
Proof.
  intros Hin Hgrid; revert cnt.
  induction l as [|j l IH]; intros cnt; [destruct Hin|]; cbn [fold_left].
  destruct Hin as [->|Hin].
  - pose proof (countSteps_grow board row col player d l
                  (countStep board row col player d cnt i)) as [Hp Ho].
    destruct (countStep_sees board row col player d cnt i Hgrid) as [Hp1 Ho1].
    split; intros Hcell; [rewrite (Hp1 Hcell) in Hp|rewrite (Ho1 Hcell) in Ho];
      assumption.
  - pose proof (countStep_grows board row col player d cnt j).
    destruct (IH Hin (countStep board row col player d cnt j)) as [Hp Ho].
    split; intros Hcell; [specialize (Hp Hcell)|specialize (Ho Hcell)]; lia.
Qed.

Lemma windowCounts_total (board : Board) (row col : Z) (player : Cell) (d : Z * Z) :
  nonneg (windowCounts board row col player d) /\
  total (windowCounts board row col player d) <= 4.
Proof.
  unfold windowCounts.
  assert (Hz : nonneg (mkCounts 0 0 0)) by (unfold nonneg; simpl; lia).
  destruct (countSteps_total board row col player d (upto 4) _ Hz) as [Hn Ht].
  split; [assumption|].
  rewrite Ht.
  pose proof (filter_length_le (onGrid row col d) (upto 4)) as Hle.
  change (length (upto 4)) with 4%nat in Hle.
  unfold total; cbn [countPlayer countOpponent emptyCount]; lia.
Qed.

(** X9. A window that holds pieces of both sides adds nothing to the score. *)
Theorem mixed_window_scores_zero :
  forall board row col player d i j,
    0 <= i < 4 -> 0 <= j < 4 ->
    onGrid row col d i = true -> onGrid row col d j = true ->
    cellAt board (row + i * fst d) (col + i * snd d) = Some player ->
    cellAt board (row + j * fst d) (col + j * snd d) = Some (rival player) ->
    windowDelta board row col player d = 0.
Proof.
  intros board row col player d i j Hi Hj Hgi Hgj Hown Hrival.
  destruct (windowCounts_total board row col player d) as [(Hp & Ho & He) Ht].
  apply in_upto in Hi; apply in_upto in Hj.
  pose proof (proj1 (countSteps_sees board row col player d (upto 4)
                       (mkCounts 0 0 0) i Hi Hgi) Hown) as Hsee1.
  pose proof (proj2 (countSteps_sees board row col player d (upto 4)
                       (mkCounts 0 0 0) j Hj Hgj) Hrival) as Hsee2.
  unfold windowDelta; fold (windowCounts board row col player d) in Hsee1, Hsee2.
  cbn [countPlayer countOpponent] in Hsee1, Hsee2.
  unfold total in Ht; unfold scoreWindow.
  score_cases.
Qed.

Lemma mixed_window_scores_zero_witness :
  0 <= 0 < 4 /\ 0 <= 1 < 4 /\
  onGrid 5 0 (0, 1) 0 = true /\ onGrid 5 0 (0, 1) 1 = true /\
  cellAt lateBoard (5 + 0 * fst (0, 1)) (0 + 0 * snd (0, 1)) = Some OPPONENT /\
  cellAt lateBoard (5 + 1 * fst (0, 1)) (0 + 1 * snd (0, 1)) = Some (rival OPPONENT) /\
  windowDelta lateBoard 5 0 OPPONENT (0, 1) = 0.
Proof.
  assert (H0 : 0 <= 0 < 4) by lia.
  assert (H1 : 0 <= 1 < 4) by lia.
  split; [exact H0|split; [exact H1|]].
  do 4 (split; [reflexivity|]).
  exact (mixed_window_scores_zero lateBoard 5 0 OPPONENT (0, 1) 0 1 H0 H1
           eq_refl eq_refl eq_refl eq_refl).
Defined.

Lemma windowDelta_own_anchor (board : Board) (row col : Z) (player : Cell)
    (d : Z * Z) :
  0 <= row < ROWS -> 0 <= col < COLS ->
  cellAt board row col = Some player ->
  0 <= windowDelta board row col player d.
Proof.
  intros Hrow Hcol Hcell.
  destruct (windowCounts_total board row col player d) as [(Hp & Ho & He) Ht].
  assert (Hgrid : onGrid row col d 0 = true).
  { unfold onGrid; cbv zeta; rewrite !Z.mul_0_l, !Z.add_0_r.
    repeat (apply andb_true_iff; split);
      try (apply Z.geb_le; lia); apply Z.ltb_lt; lia. }
  assert (Hin : In 0 (upto 4)) by (apply in_upto; lia).
  destruct (countSteps_sees board row col player d (upto 4) (mkCounts 0 0 0) 0
              Hin Hgrid) as [Hsee _].
  rewrite !Z.mul_0_l, !Z.add_0_r in Hsee; specialize (Hsee Hcell).
  unfold windowDelta; fold (windowCounts board row col player d) in Hsee.
  cbn [countPlayer] in Hsee.
  unfold total in Ht; unfold scoreWindow.
  score_cases.
Qed.

(** X10. [heuristic] calls [evaluateLine] only on a cell that holds the side it
    passes. In such a call the window always counts that piece, so the
    branches that subtract (three, two or one pieces of the other side) never
    fire: the result lies between 0 and 400. The threats of the other side
    enter the score only through the calls made on that side's own cells. *)
Theorem evaluateLine_own_cell_nonnegative :
  forall board row col player,
    0 <= row < ROWS -> 0 <= col < COLS ->
    cellAt board row col = Some player ->
    0 <= evaluateLine board row col player <= 400.
Proof.
  intros board row col player Hrow Hcol Hcell.
  split; [|apply evaluateLine_range].
  unfold evaluateLine; rewrite evaluateLine_sum_from.
  assert (Hsum : forall ds,
             0 <= fold_right Z.add 0 (map (windowDelta board row col player) ds)).
  { induction ds as [|d ds IH]; cbn [map fold_right]; [lia|].
    pose proof (windowDelta_own_anchor board row col player d Hrow Hcol Hcell).
    lia. }
  specialize (Hsum directions); lia.
Qed.

Lemma evaluateLine_own_cell_nonnegative_witness :
  0 <= 5 < ROWS /\ 0 <= 0 < COLS /\
  cellAt lateBoard 5 0 = Some OPPONENT /\
  0 <= evaluateLine lateBoard 5 0 OPPONENT <= 400.
Proof.
  assert (Hr : 0 <= 5 < ROWS) by (unfold ROWS; lia).
  assert (Hc : 0 <= 0 < COLS) by (unfold COLS; lia).
  split; [exact Hr|split; [exact Hc|split; [reflexivity|]]].
  exact (evaluateLine_own_cell_nonnegative lateBoard 5 0 OPPONENT Hr Hc eq_refl).
Defined.

(** ** The search seen from the other side *)

Lemma setNth_map {A B : Type} (f : A -> B) (n : nat) (v : A) (l : list A) :
  setNth n (f v) (map f l) = map f (setNth n v l).
Proof.
  revert n; induction l as [|h t IH]; intros [|n]; simpl; try reflexivity.
  now rewrite IH.
Qed.

Lemma setCell_swap (board : Board) (r c : Z) (v : Cell) :
  setCell (swap board) r c (swapCell v) = swap (setCell board r c v).
Proof.
  unfold setCell, swap.
  destruct ((r <? 0) || (c <? 0)); [reflexivity|].
  rewrite nth_error_map.
  destruct (nth_error board (Z.to_nat r)) as [cells|]; cbn [option_map];
    [|reflexivity].
  now rewrite setNth_map, setNth_map.
Qed.

Lemma checkDirection_swap (board : Board) (row col : Z) (player : Cell)
    (dRow dCol : Z) :
  checkDirection (swap board) row col (swapCell player) dRow dCol
  = checkDirection board row col player dRow dCol.
Proof.
  unfold checkDirection.
  induction (upto 4) as [|i l IH]; cbn [forallb]; [reflexivity|].
  now rewrite cellAt_swap, cell_is_swap, IH.
Qed.

Lemma existsb_ext_in {A : Type} (f g : A -> bool) (l : list A) :
  (forall x, f x = g x) -> existsb f l = existsb g l.
Proof.
  intros H; induction l as [|x l IH]; simpl; [reflexivity|].
  now rewrite H, IH.
Qed.

Lemma checkWin_swap (board : Board) (player : Cell) :
  checkWin (swap board) (swapCell player)
  = option_map swapCell (checkWin board player).
Proof.
  unfold checkWin.
  match goal with
  | |- (if ?a then _ else _) = option_map _ (if ?b then _ else _) =>
      replace a with b; [destruct b; reflexivity|]
  end.
  apply existsb_ext_in; intros row.
  apply existsb_ext_in; intros col.
  now rewrite cellAt_swap, cell_is_swap, !checkDirection_swap.
Qed.

Lemma isBoardFull_swap (board : Board) : isBoardFull (swap board) = isBoardFull board.
Proof.
  unfold isBoardFull, swap.
  rewrite nth_error_map.
  destruct (nth_error board 0) as [cells|]; cbn [option_map]; [|reflexivity].
  induction cells as [|x cells IH]; cbn [map forallb]; [reflexivity|].
  rewrite IH; now destruct x.
Qed.

Lemma gameOver_swap (board : Board) : gameOver (swap board) = gameOver board.
Proof.
  unfold gameOver.
  change PLAYER with (swapCell OPPONENT) at 1.
  change OPPONENT with (swapCell PLAYER) at 2.
  rewrite !checkWin_swap, isBoardFull_swap.
  destruct (checkWin_cases board PLAYER) as [[-> _]|[-> _]],
           (checkWin_cases board OPPONENT) as [[-> _]|[-> _]];
    reflexivity.
Qed.

(** X4. Win detection does not favour a side: after swapping the sides on the
    board, [checkWin] reports the swapped side exactly where it reported the
    original one, and [isBoardFull] and the end-of-search test are unchanged. *)
Theorem win_detection_symmetric :
  forall board player,
    checkWin (swap board) (swapCell player)
    = option_map swapCell (checkWin board player) /\
    isBoardFull (swap board) = isBoardFull board /\
    gameOver (swap board) = gameOver board.
Proof.
  intros board player.
  split; [apply checkWin_swap|split; [apply isBoardFull_swap|apply gameOver_swap]].
Qed.

Lemma heuristic_swap (board : Board) : heuristic (swap board) = - heuristic board.
Proof.
  unfold heuristic.
  change 0 with (- 0) at 1.
  generalize 0 as score; generalize (upto ROWS) as rows.
  induction rows as [|row rows IH]; intros score; cbn [fold_left].
  - reflexivity.
  - now rewrite heuristicRow_swap, IH.
Qed.

Lemma ext_leb_neg (a b : ext) : ext_leb (ext_neg a) (ext_neg b) = ext_leb b a.
Proof.
  destruct a, b; simpl; try reflexivity.
  destruct (Z.leb_spec (- z) (- z0)), (Z.leb_spec z0 z); try reflexivity; lia.
Qed.

Lemma ext_neg_max (a b : ext) :
  ext_neg (ext_max a b) = ext_min (ext_neg a) (ext_neg b).
Proof.
  unfold ext_max, ext_min; rewrite ext_leb_neg.
  destruct a, b; simpl; try reflexivity.
  destruct (Z.leb_spec z z0), (Z.leb_spec z0 z); cbn [ext_neg];
    try reflexivity; f_equal; lia.
Qed.

Lemma ext_neg_min (a b : ext) :
  ext_neg (ext_min a b) = ext_max (ext_neg a) (ext_neg b).
Proof.
  unfold ext_max, ext_min; rewrite ext_leb_neg.
  destruct a, b; simpl; try reflexivity.
  destruct (Z.leb_spec z z0), (Z.leb_spec z0 z); cbn [ext_neg];
    try reflexivity; f_equal; lia.
Qed.

Lemma ext_neg_involutive (a : ext) : ext_neg (ext_neg a) = a.
Proof. destruct a; simpl; try reflexivity; f_equal; lia. Qed.

Lemma cell_is_EMPTY_swap (board : Board) (r c : Z) :
  cell_is (cellAt (swap board) r c) EMPTY = cell_is (cellAt board r c) EMPTY.
Proof. rewrite cellAt_swap; exact (cell_is_swap _ EMPTY). Qed.

Section SwapSearch.

Variables below below' : Below.
Hypothesis below_swap :
  forall b alpha beta m,
    below' (swap b) (ext_neg beta) (ext_neg alpha) (negb m)
    = (ext_neg (fst (below b alpha beta m)), swap (snd (below b alpha beta m))).

Lemma maxRows_swap (col : Z) (rows : list Z) (st : Layer) :
  minRows below' col rows (swapLayer st) = swapLayer (maxRows below col rows st).
Proof.
  revert st; induction rows as [|row rows IH]; intros st;
    cbn [maxRows minRows]; [reflexivity|].
  cbn [swapLayer l_board l_alpha l_beta l_eval].
  rewrite cell_is_EMPTY_swap.
  destruct (cell_is (cellAt (l_board st) row col) EMPTY); [|apply IH].
  change PLAYER with (swapCell OPPONENT); rewrite setCell_swap.
  change true with (negb false); rewrite below_swap.
  destruct (below _ _ _ _) as [eval back]; cbn [fst snd].
  change EMPTY with (swapCell EMPTY) at 1 2; rewrite setCell_swap.
  rewrite <- !ext_neg_max, ext_leb_neg.
  destruct (ext_leb (l_beta st) (ext_max (l_alpha st) eval)); [reflexivity|].
  apply (IH (mkLayer _ _ _ _)).
Qed.

Lemma minRows_swap (col : Z) (rows : list Z) (st : Layer) :
  maxRows below' col rows (swapLayer st) = swapLayer (minRows below col rows st).
Proof.
  revert st; induction rows as [|row rows IH]; intros st;
    cbn [maxRows minRows]; [reflexivity|].
  cbn [swapLayer l_board l_alpha l_beta l_eval].
  rewrite cell_is_EMPTY_swap.
  destruct (cell_is (cellAt (l_board st) row col) EMPTY); [|apply IH].
  change OPPONENT with (swapCell PLAYER); rewrite setCell_swap.
  change false with (negb true); rewrite below_swap.
  destruct (below _ _ _ _) as [eval back]; cbn [fst snd].
  change EMPTY with (swapCell EMPTY) at 1 2; rewrite setCell_swap.
  rewrite <- !ext_neg_min, ext_leb_neg.
  destruct (ext_leb (ext_min (l_beta st) eval) (l_alpha st)); [reflexivity|].
  apply (IH (mkLayer _ _ _ _)).
Qed.

Lemma maxCols_swap (st : Layer) :
  minCols below' (swapLayer st) = swapLayer (maxCols below st).
Proof.
  unfold minCols, maxCols; generalize (upto COLS) as cols.
  intros cols; revert st; induction cols as [|col cols IH]; intros st;
    cbn [fold_left]; [reflexivity|].
  now rewrite maxRows_swap, IH.
Qed.

Lemma minCols_swap (st : Layer) :
  maxCols below' (swapLayer st) = swapLayer (minCols below st).
Proof.
  unfold minCols, maxCols; generalize (upto COLS) as cols.
  intros cols; revert st; induction cols as [|col cols IH]; intros st;
    cbn [fold_left]; [reflexivity|].
  now rewrite minRows_swap, IH.
Qed.

End SwapSearch.

(** X12. Minimax is the same search from either side: on the board with the sides
    swapped, with the layer switched and the window [(alpha, beta)] replaced
    by [(-beta, -alpha)], it returns the negated value and, as the board it
    leaves, the swapped board. This holds at every depth and for every window,
    with the pruning as the code does it. *)
Theorem minimax_swap_negates :
  forall depth board alpha beta isMaximizingPlayer,
    minimax depth (swap board) (ext_neg beta) (ext_neg alpha)
            (negb isMaximizingPlayer)
    = (ext_neg (fst (minimax depth board alpha beta isMaximizingPlayer)),
       swap (snd (minimax depth board alpha beta isMaximizingPlayer))).
Proof.
  induction depth as [|depth IH]; intros board alpha beta m; cbn [minimax].
  - cbn [fst snd ext_neg]; now rewrite heuristic_swap.
  - rewrite gameOver_swap.
    destruct (gameOver board); [cbn [fst snd ext_neg]; now rewrite heuristic_swap|].
    destruct m; cbn [negb fst snd].
    + pose proof (maxCols_swap (minimax depth) (minimax depth) IH
                    (mkLayer board NegInf alpha beta)) as H.
      unfold swapLayer at 1 in H; cbn [l_board l_eval l_alpha l_beta ext_neg] in H.
      now rewrite H.
    + pose proof (minCols_swap (minimax depth) (minimax depth) IH
                    (mkLayer board PosInf alpha beta)) as H.
      unfold swapLayer at 1 in H; cbn [l_board l_eval l_alpha l_beta ext_neg] in H.
      now rewrite H.
Qed.

(** ** Minimax returns a score in the range of the heuristic *)

Lemma inRange_max (a b : ext) : inRange a -> inRange b -> inRange (ext_max a b).
Proof. unfold ext_max; destruct (ext_leb a b); auto. Qed.

Lemma inRange_min (a b : ext) : inRange a -> inRange b -> inRange (ext_min a b).
Proof. unfold ext_min; destruct (ext_leb a b); auto. Qed.

Section InRange.

Variable below : Below.
Hypothesis below_inRange : forall b alpha beta m, inRange (fst (below b alpha beta m)).

Lemma maxRows_inRange (col : Z) (rows : list Z) (st : Layer) :
  inRange (l_eval st) -> inRange (l_eval (maxRows below col rows st)).
Proof.
  revert st; induction rows as [|row rows IH]; intros st Hst; cbn [maxRows];
    [assumption|].
  destruct (cell_is _ EMPTY); [|now apply IH].
  pose proof (below_inRange (setCell (l_board st) row col OPPONENT)
                            (l_alpha st) (l_beta st) false) as Hb.
  destruct (below _ _ _ _) as [eval back]; cbn [fst] in Hb.
  destruct (ext_leb _ _); [|apply IH]; cbn [l_eval]; now apply inRange_max.
Qed.

Lemma minRows_inRange (col : Z) (rows : list Z) (st : Layer) :
  inRange (l_eval st) -> inRange (l_eval (minRows below col rows st)).
Proof.
  revert st; induction rows as [|row rows IH]; intros st Hst; cbn [minRows];
    [assumption|].
  destruct (cell_is _ EMPTY); [|now apply IH].
  pose proof (below_inRange (setCell (l_board st) row col PLAYER)
                            (l_alpha st) (l_beta st) true) as Hb.
  destruct (below _ _ _ _) as [eval back]; cbn [fst] in Hb.
  destruct (ext_leb _ _); [|apply IH]; cbn [l_eval]; now apply inRange_min.
Qed.

Lemma maxCols_inRange (st : Layer) :
  inRange (l_eval st) -> inRange (l_eval (maxCols below st)).
Proof.
  unfold maxCols; generalize (upto COLS) as cols.
  intros cols; revert st; induction cols as [|col cols IH]; intros st Hst;
    cbn [fold_left]; [assumption|].
  now apply IH, maxRows_inRange.
Qed.

Lemma minCols_inRange (st : Layer) :
  inRange (l_eval st) -> inRange (l_eval (minCols below st)).
Proof.
  unfold minCols; generalize (upto COLS) as cols.
  intros cols; revert st; induction cols as [|col cols IH]; intros st Hst;
    cbn [fold_left]; [assumption|].
  now apply IH, minRows_inRange.
Qed.

End InRange.

Lemma minimax_inRange (depth : nat) :
  forall board alpha beta m, inRange (fst (minimax depth board alpha beta m)).
Proof.
  induction depth as [|depth IH]; intros board alpha beta m; cbn [minimax].
  - apply heuristic_within.
  - destruct (gameOver board); [apply heuristic_within|].
    destruct m; cbn [fst].
    + now apply (maxCols_inRange (minimax depth) IH).
    + now apply (minCols_inRange (minimax depth) IH).
Qed.

(** X11. On every well-formed board, at every depth and for every window and
    layer, [minimax] returns a number, never [Infinity] or [-Infinity], and
    the number lies in the range of [heuristic]. *)
Theorem minimax_returns_a_score :
  forall depth board alpha beta isMaximizingPlayer,
    wf_board board ->
    exists z, fst (minimax depth board alpha beta isMaximizingPlayer) = Fin z /\
              -16800 <= z <= 16800.
Proof.
  intros depth board alpha beta m Hwf.
  destruct (minimax_finite depth board alpha beta m Hwf) as [z Hz].
  pose proof (minimax_inRange depth board alpha beta m) as Hr.
  rewrite Hz in Hr; exists z; split; assumption.
Qed.

Lemma minimax_returns_a_score_witness :
  wf_board lateBoard /\
  exists z, fst (minimax 2 lateBoard NegInf PosInf false) = Fin z /\
            -16800 <= z <= 16800.
Proof.
  assert (Hwf : wf_board lateBoard) by (split; [reflexivity|repeat constructor]).
  split; [exact Hwf|].
  exact (minimax_returns_a_score 2 lateBoard NegInf PosInf false Hwf).
Defined.

(** ** The column the minimax branch of [bestMove] returns *)

Lemma ext_leb_refl (a : ext) : ext_leb a a = true.
Proof. destruct a; simpl; try reflexivity; apply Z.leb_refl. Qed.

Lemma ext_leb_trans (a b c : ext) :
  ext_leb a b = true -> ext_leb b c = true -> ext_leb a c = true.
Proof.
  destruct a, b, c; simpl; try reflexivity; try discriminate.
  intros H1 H2; apply Z.leb_le in H1; apply Z.leb_le in H2; apply Z.leb_le; lia.
Qed.

Lemma ext_leb_total (a b : ext) : ext_leb a b = false -> ext_leb b a = true.
Proof.
  destruct a, b; simpl; try reflexivity; try discriminate.
  intros H; apply Z.leb_gt in H; apply Z.leb_le; lia.
Qed.

Lemma ext_gtb_leb (s best c : ext) :
  ext_gtb s best = true -> ext_leb c best = true -> ext_gtb s c = true.
Proof.
  unfold ext_gtb; intros Hs Hc.
  apply negb_true_iff in Hs; apply negb_true_iff.
  destruct (ext_leb s c) eqn:Hsc; [|reflexivity].
  rewrite (ext_leb_trans s c best Hsc Hc) in Hs; discriminate.
Qed.

Lemma bestRows_spec (col : Z) (rows : list Z) (st : Best) :
  bestRows col rows st
  = match lowestEmpty (b_board st) col rows with
    | None => st
    | Some row =>
        let score := fst (minimax MAX_DEPTH (setCell (b_board st) row col OPPONENT)
                                  NegInf PosInf false) in
        if ext_gtb score (b_bestScore st) then mkBest (b_board st) score col
        else mkBest (b_board st) (b_bestScore st) (b_move st)
    end.
Proof.
  induction rows as [|row rows IH]; cbn [bestRows lowestEmpty]; [reflexivity|].
  destruct (cell_is (cellAt (b_board st) row col) EMPTY) eqn:Hcell; [|exact IH].
  apply cell_is_true in Hcell.
  pose proof (minimax_board MAX_DEPTH (setCell (b_board st) row col OPPONENT)
                            NegInf PosInf false) as Hback.
  destruct (minimax _ _ _ _ _) as [score back]; cbn [fst snd] in *; subst back.
  now rewrite (setCell_undo _ _ _ _ _ Hcell).
Qed.

Lemma trialScore_finite (board : Board) (col : Z) :
  wf_board board -> columnHasEmpty board col = true ->
  finite (trialScore board col).
Proof.
  intros Hwf Hcol; unfold trialScore.
  destruct (lowestEmpty board col (downfrom ROWS)) as [row|] eqn:Hlow.
  - apply minimax_finite, wf_setCell, Hwf.
  - apply columnHasEmpty_lowest in Hlow; congruence.
Qed.

Lemma bestSoFar_step (board : Board) (done : list Z) (col : Z) (st : Best) :
  wf_board board ->
  bestSoFar board done st ->
  bestSoFar board (done ++ [col]) (bestRows col (downfrom ROWS) st).
Proof.
  intros Hwf [Hb Hst]; rewrite bestRows_spec, Hb.
  destruct (lowestEmpty board col (downfrom ROWS)) as [row|] eqn:Hlow.
  - assert (Hcol : columnHasEmpty board col = true).
    { destruct (columnHasEmpty board col) eqn:He; [reflexivity|].
      apply columnHasEmpty_lowest in He; congruence. }
    assert (Hscore : fst (minimax MAX_DEPTH (setCell board row col OPPONENT)
                                  NegInf PosInf false) = trialScore board col)
      by (unfold trialScore; now rewrite Hlow).
    cbv zeta; rewrite Hscore.
    destruct (ext_gtb (trialScore board col) (b_bestScore st)) eqn:Hgt.
    + split; [reflexivity|right]; cbn [b_move b_bestScore].
      exists done, []; repeat split; try assumption; [|intros ? []].
      intros c Hc Hlegal.
      apply (ext_gtb_leb _ (b_bestScore st)); [assumption|].
      destruct Hst as [(_ & _ & Hnone)|(l1 & l2 & Hdone & Hm & Hs & H1 & H2)].
      * rewrite (Hnone c Hc) in Hlegal; discriminate.
      * rewrite Hdone in Hc.
        apply in_app_or in Hc as [Hc|[<-|Hc]].
        -- specialize (H1 c Hc Hlegal).
           apply negb_true_iff in H1; now apply ext_leb_total.
        -- rewrite Hs; apply ext_leb_refl.
        -- now apply H2.
    + split; [reflexivity|]; cbn [b_move b_bestScore].
      destruct Hst as [(_ & Hn & _)|(l1 & l2 & Hdone & Hm & Hs & H1 & H2)].
      * destruct (trialScore_finite board col Hwf Hcol) as [z Hz].
        rewrite Hn, Hz in Hgt; discriminate.
      * right; exists l1, (l2 ++ [col]); repeat split; try assumption.
        -- now rewrite Hdone, <- app_assoc.
        -- intros c Hc Hlegal.
           apply in_app_or in Hc as [Hc|[<-|[]]]; [now apply H2|].
           now apply negb_false_iff in Hgt.
  - apply columnHasEmpty_lowest in Hlow.
    split; [assumption|].
    destruct Hst as [(Hm & Hn & Hnone)|(l1 & l2 & Hdone & Hm & Hs & H1 & H2)].
    + left; repeat split; try assumption.
      intros c Hc; apply in_app_or in Hc as [Hc|[<-|[]]]; auto.
    + right; exists l1, (l2 ++ [col]); repeat split; try assumption.
      * now rewrite Hdone, <- app_assoc.
      * intros c Hc Hlegal.
        apply in_app_or in Hc as [Hc|[<-|[]]]; [now apply H2|congruence].
Qed.

Lemma bestSoFar_fold (board : Board) (cols done : list Z) (st : Best) :
  wf_board board ->
  bestSoFar board done st ->
  bestSoFar board (done ++ cols)
            (fold_left (fun st col => bestRows col (downfrom ROWS) st) cols st).
Proof.
  intros Hwf; revert done st.
  induction cols as [|col cols IH]; intros done st Hst; cbn [fold_left].
  - now rewrite app_nil_r.
  - replace (done ++ col :: cols) with ((done ++ [col]) ++ cols)
      by (now rewrite <- app_assoc).
    now apply IH, bestSoFar_step.
Qed.

Lemma seq_split_later (k a : nat) (l1 l2 : list Z) (m : Z) :
  map Z.of_nat (seq a k) = l1 ++ m :: l2 ->
  forall c, In c l2 -> m < c.
Proof.
  revert a l1; induction k as [|k IH]; intros a l1 Hsplit c Hc; cbn [seq map] in Hsplit.
  - destruct l1; discriminate.
  - destruct l1 as [|x l1]; cbn [app] in Hsplit.
    + injection Hsplit as <- <-.
      apply in_map_iff in Hc as (n & <- & Hn); apply in_seq in Hn; lia.
    + injection Hsplit as _ Hrest.
      exact (IH (S a) l1 Hrest c Hc).
Qed.

Lemma bestSoFar_all (board : Board) (st : Best) :
  bestSoFar board (upto COLS) st ->
  (b_move st = -1 /\
   forall col, 0 <= col < COLS -> columnHasEmpty board col = false) \/
  (0 <= b_move st < COLS /\ columnHasEmpty board (b_move st) = true /\
   (forall col, 0 <= col < COLS -> columnHasEmpty board col = true ->
                ext_leb (trialScore board col) (trialScore board (b_move st)) = true) /\
   (forall col, 0 <= col < b_move st -> columnHasEmpty board col = true ->
                ext_gtb (trialScore board (b_move st)) (trialScore board col) = true)).
Proof.
  intros [_ Hst].
  destruct Hst as [(Hm & _ & Hnone)|(l1 & l2 & Hdone & Hm & Hs & H1 & H2)].
  - left; split; [assumption|].
    intros col Hcol; apply Hnone; now apply in_upto.
  - right.
    assert (Hin : In (b_move st) (l1 ++ b_move st :: l2))
      by (apply in_or_app; right; left; reflexivity).
    rewrite <- Hdone in Hin; apply in_upto in Hin.
    split; [assumption|split; [assumption|]].
    rewrite Hs in H1, H2.
    split; intros col Hcol Hlegal.
    + assert (Hc : In col (upto COLS)) by (now apply in_upto).
      rewrite Hdone in Hc.
      apply in_app_or in Hc as [Hc|[<-|Hc]].
      * specialize (H1 col Hc Hlegal).
        apply negb_true_iff in H1; now apply ext_leb_total.
      * apply ext_leb_refl.
      * now apply H2.
    + assert (Hc : In col (upto COLS)) by (apply in_upto; lia).
      rewrite Hdone in Hc.
      apply in_app_or in Hc as [Hc|[Heq|Hc]].
      * now apply H1.
      * lia.
      * unfold upto in Hdone.
        pose proof (seq_split_later _ _ _ _ _ Hdone col Hc); lia.
Qed.

(** X13. The minimax branch of [bestMove] on a well-formed board. It leaves the
    board as it was. If no column has an [EMPTY] cell it returns [-1];
    otherwise it returns a legal column whose trial score no legal column
    beats, and which strictly beats every legal column to its left: among the
    best columns the leftmost is returned. *)
Theorem bestMove_returns_leftmost_best :
  forall env board difficulty,
    wf_board board -> difficulty <> Some "easy"%string ->
    exists move,
      bestMove env board difficulty = Normal (Some move, board) /\
      ((move = -1 /\
        forall col, 0 <= col < COLS -> columnHasEmpty board col = false) \/
       (0 <= move < COLS /\ columnHasEmpty board move = true /\
        (forall col, 0 <= col < COLS -> columnHasEmpty board col = true ->
                     ext_leb (trialScore board col) (trialScore board move) = true) /\
        (forall col, 0 <= col < move -> columnHasEmpty board col = true ->
                     ext_gtb (trialScore board move) (trialScore board col) = true))).
Proof.
  intros env board difficulty Hwf Hd.
  unfold bestMove; rewrite (isEasy_false _ Hd); cbv zeta.
  rewrite bestCols_board; cbn [b_board].
  eexists; split; [reflexivity|].
  apply bestSoFar_all.
  apply (bestSoFar_fold board (upto COLS) [] (mkBest board NegInf (-1)) Hwf).
  split; [reflexivity|left]; repeat split; intros ? [].
Qed.

Lemma bestMove_returns_leftmost_best_witness :
  wf_board lateBoard /\ None <> Some "easy"%string /\
  exists move,
    bestMove (asWritten 0 0) lateBoard None = Normal (Some move, lateBoard) /\
    ((move = -1 /\
      forall col, 0 <= col < COLS -> columnHasEmpty lateBoard col = false) \/
     (0 <= move < COLS /\ columnHasEmpty lateBoard move = true /\
      (forall col, 0 <= col < COLS -> columnHasEmpty lateBoard col = true ->
                   ext_leb (trialScore lateBoard col) (trialScore lateBoard move) = true) /\
      (forall col, 0 <= col < move -> columnHasEmpty lateBoard col = true ->
                   ext_gtb (trialScore lateBoard move) (trialScore lateBoard col) = true))).
Proof.
  assert (Hwf : wf_board lateBoard) by (split; [reflexivity|repeat constructor]).
  assert (Hd : @None string <> Some "easy"%string) by discriminate.
  split; [exact Hwf|split; [exact Hd|]].
  exact (bestMove_returns_leftmost_best (asWritten 0 0) lateBoard None Hwf Hd).
Defined.

(** ** A turn of the game never fails *)

Lemma bestMove_None (env : Env) (board : Board) :
  bestMove env board None
  = Normal (Some (b_move (fold_left (fun st col => bestRows col (downfrom ROWS) st)
                                    (upto COLS) (mkBest board NegInf (-1)))),
            board).
Proof.
  unfold bestMove; change (isEasy None) with false; cbv iota zeta.
  now rewrite bestCols_board.
Qed.

(** X16. [playGame] calls [bestMove(board)] without a difficulty, so every turn
    takes the minimax branch: a turn never throws (the unbound
    [heuristicEasy] is never reached), always ends, and does not depend on
    the random draw. It reports an invalid column exactly when the column is
    [NaN] or outside [0, COLS), and then it leaves the board as it was and
    asks again. *)
Theorem playGame_turn_completes :
  forall env column board,
    exists board' out next,
      playGame env column board = Normal (board', out, next) /\
      playGame (asWritten 0 0) column board = Normal (board', out, next) /\
      (In (Say InvalidColumn) out <->
       match column with
       | Some c => ~ 0 <= c < COLS
       | None => True
       end) /\
      (In (Say InvalidColumn) out -> board' = board /\ next = Prompt).
Proof.
  intros env column board; unfold playGame.
  destruct column as [c|].
  - destruct ((c >=? 0) && (c <? COLS)) eqn:Hrange.
    + apply andb_true_iff in Hrange as [Hlo Hhi].
      apply Z.geb_le in Hlo; apply Z.ltb_lt in Hhi.
      unfold afterHumanPiece; rewrite !bestMove_None.
      generalize (b_move (fold_left (fun st col => bestRows col (downfrom ROWS) st)
                                    (upto COLS)
                                    (mkBest (placePiece c PLAYER board) NegInf (-1)))).
      intros move; cbv zeta.
      destruct (cell_is (checkWin (placePiece c PLAYER board) PLAYER) PLAYER);
        [|destruct (isBoardFull (placePiece c PLAYER board));
          [|destruct (cell_is (checkWin _ OPPONENT) OPPONENT);
            [|destruct (isBoardFull (placePiece move OPPONENT _))]]];
        do 3 eexists; (split; [reflexivity|split; [reflexivity|]]);
        cbn; (split; [split; [intuition discriminate|intros; lia]
                     |intuition discriminate]).
    + do 3 eexists; split; [reflexivity|split; [reflexivity|]].
      split; [split; [intros _|intros _; now left]|auto].
      intros [Hlo Hhi].
      assert ((c >=? 0) && (c <? COLS) = true); [|congruence].
      apply andb_true_iff; split; [apply Z.geb_le|apply Z.ltb_lt]; lia.
  - do 3 eexists; split; [reflexivity|split; [reflexivity|]].
    split; [split; [trivial|intros _; now left]|auto].
Qed.

(** ** What holds at every prompt *)

Lemma checkWin_None (board : Board) (player : Cell) :
  cell_is (checkWin board player) player = false -> checkWin board player = None.
Proof.
  destruct (checkWin_cases board player) as [[_ H]|[H _]]; [congruence|auto].
Qed.

Lemma prompted_gravity (env : Env) (board : Board) :
  prompted env board ->
  gravity board = true /\ checkWin board OPPONENT = None.
Proof.
  induction 1 as [|board board' column out Hprev [Hg Hwin] Hturn].
  - split; reflexivity.
  - unfold playGame in Hturn.
    destruct column as [column|]; [|injection Hturn as <- _; auto].
    destruct ((column >=? 0) && (column <? COLS));
      [|injection Hturn as <- _; auto].
    unfold afterHumanPiece in Hturn; rewrite bestMove_None in Hturn.
    revert Hturn.
    generalize (b_move (fold_left (fun st col => bestRows col (downfrom ROWS) st)
                                  (upto COLS)
                                  (mkBest (placePiece column PLAYER board) NegInf (-1)))).
    intros move Hturn; cbv zeta in Hturn.
    destruct (cell_is (checkWin (placePiece column PLAYER board) PLAYER) PLAYER);
      [discriminate|].
    destruct (isBoardFull (placePiece column PLAYER board)); [discriminate|].
    destruct (cell_is (checkWin (placePiece move OPPONENT
                                   (placePiece column PLAYER board)) OPPONENT)
                      OPPONENT) eqn:Hwin2; [discriminate|].
    destruct (isBoardFull (placePiece move OPPONENT _)); [discriminate|].
    injection Hturn as <- _.
    split; [|now apply checkWin_None].
    apply gravity_placePiece; [discriminate|].
    apply gravity_placePiece; [discriminate|assumption].
Qed.

(** The board after the first turn of a game in which the human opens in
    column 3: the game asks again, on a board that holds the human's piece at
    the bottom of column 3 and one piece of the machine. *)
Lemma prompted_after_first_turn (env : Env) :
  exists move,
    0 <= move < COLS /\
    prompted env (placePiece move OPPONENT (placePiece 3 PLAYER emptyBoard)) /\
    cellAt (placePiece move OPPONENT (placePiece 3 PLAYER emptyBoard)) 5 3
    = Some PLAYER.
Proof.
  assert (Hwf : wf_board (placePiece 3 PLAYER emptyBoard)).
  { apply wf_placePiece; split; [reflexivity|repeat constructor]. }
  destruct (bestMove_hard_legal env (placePiece 3 PLAYER emptyBoard) None Hwf)
    as (move & Hbest & Hmove & _).
  { exists 0; split; [unfold COLS; lia|reflexivity]. }
  { discriminate. }
  exists move; split; [exact Hmove|].
  assert (Hturn : exists out,
             playGame env (Some 3) emptyBoard
             = Normal (placePiece move OPPONENT (placePiece 3 PLAYER emptyBoard),
                       out, Prompt)).
  { unfold playGame.
    change ((3 >=? 0) && (3 <? COLS)) with true; cbv iota.
    unfold afterHumanPiece.
    change (cell_is (checkWin (placePiece 3 PLAYER emptyBoard) PLAYER) PLAYER)
      with false.
    change (isBoardFull (placePiece 3 PLAYER emptyBoard)) with false.
    cbv iota; rewrite Hbest; cbv zeta.
    assert (Hcases : move = 0 \/ move = 1 \/ move = 2 \/ move = 3 \/
                     move = 4 \/ move = 5 \/ move = 6)
      by (unfold COLS in Hmove; lia).
    destruct Hcases as [->|[->|[->|[->|[->|[->| ->]]]]]];
      eexists; vm_compute; reflexivity. }
  destruct Hturn as [out Hturn].
  split; [exact (prompted_again env _ _ _ _ (prompted_start env) Hturn)|].
  apply cell_is_true.
  rewrite (placePiece_keeps_side (placePiece 3 PLAYER emptyBoard) move
             OPPONENT PLAYER) by discriminate.
  reflexivity.
Qed.

(** X17. Whenever the game asks the human for a move, the board is well formed and
    obeys gravity, neither side has four-in-a-row, the board is not full, and
    some column can take a piece. *)
Theorem prompt_invariant :
  forall env board,
    prompted env board ->
    wf_board board /\ gravity board = true /\
    checkWin board PLAYER = None /\ checkWin board OPPONENT = None /\
    isBoardFull board = false /\
    exists col, 0 <= col < COLS /\ columnHasEmpty board col = true.
Proof.
  intros env board Hp.
  destruct (prompted_in_progress env board Hp) as (Hwf & Hwin & Hfull).
  destruct (prompted_gravity env board Hp) as [Hg Hwin'].
  repeat (split; [first [assumption|now apply checkWin_None]|]).
  destruct (not_full_has_empty board Hwf Hfull) as (col & Hcol & Hcell).
  exists col; split; [assumption|].
  apply (columnHasEmpty_true board col 0); [unfold ROWS; lia|assumption].
Qed.

Lemma prompt_invariant_witness :
  exists move,
    0 <= move < COLS /\
    let board := placePiece move OPPONENT (placePiece 3 PLAYER emptyBoard) in
    prompted (asWritten 0 0) board /\
    cellAt board 5 3 = Some PLAYER /\ board <> emptyBoard /\
    wf_board board /\ gravity board = true /\
    checkWin board PLAYER = None /\ checkWin board OPPONENT = None /\
    isBoardFull board = false /\
    exists col, 0 <= col < COLS /\ columnHasEmpty board col = true.
Proof.
  destruct (prompted_after_first_turn (asWritten 0 0)) as (move & Hmove & Hp & Hcell).
  exists move; split; [exact Hmove|]; cbv zeta.
  split; [exact Hp|split; [exact Hcell|split]].
  - intros Heq; rewrite Heq in Hcell; discriminate.
  - exact (prompt_invariant (asWritten 0 0) _ Hp).
Defined.

(** ** The move of the node the search finds *)

Section LoopInvariant.

Variable player : Cell.
Variable Q : RNode -> Prop.
Hypothesis Q_step :
  forall cur s,
    Q cur -> In s (generateSuccessors (n_board (fst cur)) player) ->
    Q (mkNode (fst s) (Some (snd s)) (n_g (fst cur) + 1) None (n_g (fst cur) + 1),
       snd cur ++ [snd s]).

Lemma insertByFRoute_Forall (n : RNode) (l : list RNode) :
  Q n -> Forall Q l -> Forall Q (insertByFRoute n l).
Proof.
  intros Hn Hl; induction Hl as [|m l Hm Hl IH]; cbn [insertByFRoute].
  - constructor; [assumption|constructor].
  - destruct (_ <? _);
      [constructor; [assumption|constructor; assumption]
      |constructor; assumption].
Qed.

Lemma sortByFRoute_Forall (l : list RNode) :
  Forall Q l -> Forall Q (sortByFRoute l).
Proof.
  unfold sortByFRoute.
  assert (Hnil : Forall Q []) by constructor.
  revert Hnil; generalize (@nil RNode) as sorted.
  induction l as [|n l IH]; intros sorted Hs Hl; cbn [fold_left]; [assumption|].
  inversion Hl; subst.
  apply IH; [apply insertByFRoute_Forall|]; assumption.
Qed.

Lemma considerSuccessorsRoute_Forall (cur : RNode) (closedList : list RNode)
    (successors : list (Board * Z)) (openList : list RNode) :
  Q cur ->
  (forall s, In s successors ->
             In s (generateSuccessors (n_board (fst cur)) player)) ->
  Forall Q openList ->
  Forall Q (fold_left (considerSuccessorRoute cur closedList) successors openList).
Proof.
  intros Hcur; revert openList.
  induction successors as [|s successors IH]; intros openList Hin Hopen;
    cbn [fold_left]; [assumption|].
  apply IH; [intros; apply Hin; now right|].
  unfold considerSuccessorRoute.
  destruct (findBoardRoute closedList (fst s)); [assumption|].
  assert (Hnew : Forall Q (openList ++
                   [(mkNode (fst s) (Some (snd s)) (n_g (fst cur) + 1) None
                            (n_g (fst cur) + 1), snd cur ++ [snd s])])).
  { apply Forall_app; split; [assumption|].
    constructor; [|constructor].
    apply Q_step; [assumption|apply Hin; now left]. }
  destruct (findBoardRoute openList (fst s)); [destruct (_ <? _)|]; assumption.
Qed.

Lemma aStarLoopRoute_Forall (fuel : nat) :
  forall openList closedList rn,
    Forall Q openList ->
    aStarLoopRoute fuel player openList closedList = Normal (Some rn) ->
    Q rn.
Proof.
  induction fuel as [|fuel IH]; intros openList closedList rn Hopen;
    cbn [aStarLoopRoute]; [discriminate|].
  pose proof (sortByFRoute_Forall openList Hopen) as Hsorted.
  destruct (sortByFRoute openList) as [|cur rest]; [discriminate|].
  inversion Hsorted as [|? ? Hcur Hrest]; subst.
  destruct (truthy (checkWin (n_board (fst cur)) OPPONENT)).
  - now intros [= <-].
  - apply IH, considerSuccessorsRoute_Forall; auto.
Qed.

End LoopInvariant.

Lemma placePiece_keeps_no_empty (board : Board) (col : Z) (p : Cell) (r c : Z) :
  cell_is (cellAt (placePiece col p board) r c) EMPTY = true ->
  cell_is (cellAt board r c) EMPTY = true.
Proof.
  unfold placePiece; generalize (downfrom ROWS) as rows.
  induction rows as [|row rows IH]; cbn [placeRows]; [trivial|].
  destruct (cell_is (cellAt board row col) EMPTY) eqn:Hcell; [|exact IH].
  destruct (Z.eq_dec row r) as [->|Hr]; [destruct (Z.eq_dec col c) as [->|Hc]|].
  - intros _; exact Hcell.
  - now rewrite cellAt_setCell_other by (right; exact Hc).
  - now rewrite cellAt_setCell_other by (left; exact Hr).
Qed.

Lemma columnHasEmpty_replay (board : Board) (player : Cell) (route : list Z) (c : Z) :
  columnHasEmpty (replay board player route) c = true ->
  columnHasEmpty board c = true.
Proof.
  unfold replay; revert board.
  induction route as [|col route IH]; intros board; cbn [fold_left]; [trivial|].
  intros H; apply IH in H.
  unfold columnHasEmpty in *.
  apply existsb_exists in H as (row & Hin & Hcell).
  apply existsb_exists; exists row; split; [assumption|].
  now apply (placePiece_keeps_no_empty board col player).
Qed.

Lemma aStarLoopRoute_lawful (board : Board) (player : Cell) (fuel : nat)
    (startNode : Node) (rn : RNode) :
  n_board startNode = board -> n_move startNode = None ->
  aStarLoopRoute fuel player [(startNode, [])] [] = Normal (Some rn) ->
  routed board player rn /\ lawful board rn.
Proof.
  intros Hb Hm.
  apply (aStarLoopRoute_Forall player
           (fun rn => routed board player rn /\ lawful board rn)).
  - intros cur s [[Hcb Hcm] _] Hin.
    rewrite generateSuccessors_spec in Hin.
    apply in_map_iff in Hin as (col & <- & Hcol).
    apply filter_In in Hcol as [Hrange Hlegal].
    apply in_upto in Hrange.
    cbn [fst snd].
    split; [split|]; cbn [fst snd n_board n_move].
    + now rewrite replay_snoc, <- Hcb.
    + now rewrite lastPly_snoc.
    + unfold lawful; cbn [fst n_move].
      split; [assumption|].
      rewrite Hcb in Hlegal; exact (columnHasEmpty_replay _ _ _ _ Hlegal).
  - constructor; [|constructor].
    split; [split|]; unfold lawful; cbn [fst snd]; auto.
    now rewrite Hm.
Qed.

(** X14. When the best-first search returns a node, whatever function
    [heuristicEasy] is bound to: the node's board holds a four-in-a-row of
    the machine, and the move recorded on it, which the ['easy'] branch of
    [bestMove] returns, is either [null], the node being the start node and
    its board the current board, or a column of the grid that has an [EMPTY]
    cell on the current board. *)
Theorem aStarSearch_found_move_is_legal :
  forall env board node,
    aStarSearch env board OPPONENT = Normal (Some node) ->
    truthy (checkWin (n_board node) OPPONENT) = true /\
    bestMove env board (Some "easy"%string) = Normal (n_move node, board) /\
    match n_move node with
    | None => n_board node = board
    | Some c => 0 <= c < COLS /\ columnHasEmpty board c = true
    end.
Proof.
  intros env board node Hfound.
  assert (Hbest : bestMove env board (Some "easy"%string)
                  = Normal (n_move node, board)).
  { unfold bestMove; change (isEasy (Some "easy"%string)) with true; cbv iota.
    now rewrite Hfound. }
  pose proof (aStarSearchRoute_erase env board OPPONENT) as Herase.
  rewrite Hfound in Herase.
  unfold aStarSearchRoute in Herase.
  destruct (heuristicEasy env) as [h|]; [|discriminate].
  destruct (aStarLoopRoute _ _ _ _) as [[[node' route]|]| |] eqn:Hloop;
    try discriminate.
  injection Herase as <-.
  assert (Hstart : Forall (routed board OPPONENT)
                     [(mkNode board None 0 (Some (h board)) (0 + h board), [])])
    by (repeat constructor).
  destruct (aStarLoopRoute_routed board OPPONENT _ _ _ _ Hstart Hloop)
    as [_ Hwin].
  destruct (aStarLoopRoute_lawful board OPPONENT _
              (mkNode board None 0 (Some (h board)) (0 + h board)) _
              eq_refl eq_refl Hloop)
    as [[Hb _] Hlaw].
  cbn [fst snd] in *.
  split; [assumption|split; [assumption|]].
  unfold lawful in Hlaw; cbn [fst snd] in Hlaw.
  destruct (n_move node') as [c|]; [exact Hlaw|].
  now rewrite Hb, Hlaw.
Qed.

Lemma aStarSearch_found_move_is_legal_witness :
  let env := mkEnv (Some heuristic) 0 40 in
  let node := mkNode (replay twoInRowBoard OPPONENT [2; 3]) (Some 3) 2 None 2 in
  aStarSearch env twoInRowBoard OPPONENT = Normal (Some node) /\
  truthy (checkWin (n_board node) OPPONENT) = true /\
  bestMove env twoInRowBoard (Some "easy"%string)
  = Normal (n_move node, twoInRowBoard) /\
  match n_move node with
  | None => n_board node = twoInRowBoard
  | Some c => 0 <= c < COLS /\ columnHasEmpty twoInRowBoard c = true
  end.
Proof.
  intros env node.
  assert (Hfound : aStarSearch env twoInRowBoard OPPONENT = Normal (Some node))
    by (vm_compute; reflexivity).
  split; [exact Hfound|].
  exact (aStarSearch_found_move_is_legal env twoInRowBoard node Hfound).
Defined.

(** X15. On a board where the machine already has four-in-a-row, the ['easy']
    branch of [bestMove] (with [heuristicEasy] bound and at least one turn of
    the loop) returns [null]: the search returns its start node, whose move
    is [null], and no column is named. *)
Theorem bestMove_easy_on_won_board :
  forall h draw turns board,
    truthy (checkWin board OPPONENT) = true ->
    bestMove (mkEnv (Some h) draw (S turns)) board (Some "easy"%string)
    = Normal (None, board).
Proof.
  intros h draw turns board Hwin.
  unfold bestMove; change (isEasy (Some "easy"%string)) with true; cbv iota.
  unfold aStarSearch; cbn [heuristicEasy fuel].
  cbn [aStarLoop sortByF fold_left insertByF n_board].
  now rewrite Hwin.
Qed.

Lemma bestMove_easy_on_won_board_witness :
  let won := replay twoInRowBoard OPPONENT [2; 3] in
  truthy (checkWin won OPPONENT) = true /\
  bestMove (mkEnv (Some heuristic) 0 1) won (Some "easy"%string)
  = Normal (None, won).
Proof.
  intros won.
  assert (Hwin : truthy (checkWin won OPPONENT) = true) by (vm_compute; reflexivity).
  split; [exact Hwin|].
  exact (bestMove_easy_on_won_board heuristic 0 0%nat won Hwin).
Defined.

(** ** Printing the board *)

Lemma cellDigit_inj (c c' : Cell) : cellDigit c = cellDigit c' -> c = c'.
Proof. destruct c, c'; try reflexivity; discriminate. Qed.

Lemma joinDigits_inj (l l' : list Cell) :
  String.concat " " (map cellDigit l) = String.concat " " (map cellDigit l') ->
  l = l'.
Proof.
  revert l'; induction l as [|c l IH]; intros [|c' l'].
  - reflexivity.
  - destruct c', l'; discriminate.
  - destruct c, l; discriminate.
  - intros H.
    assert (Hhead : c = c' /\
                    String.concat " " (map cellDigit l)
                    = String.concat " " (map cellDigit l')).
    { destruct l as [|d l], l' as [|d' l']; cbn [map String.concat] in H |- *.
      - split; [now apply cellDigit_inj|reflexivity].
      - destruct c, c', d'; discriminate.
      - destruct c, c', d; discriminate.
      - destruct c, c'; try discriminate; injection H as H; auto. }
    destruct Hhead as [-> Htail]; f_equal; now apply IH.
Qed.

Lemma map_inj_list {A B : Type} (f : A -> B) (l l' : list A) :
  (forall x y, f x = f y -> x = y) -> map f l = map f l' -> l = l'.
Proof.
  intros Hf; revert l'; induction l as [|x l IH]; intros [|y l'] H;
    try discriminate; [reflexivity|].
  injection H as Hx Hl; f_equal; auto.
Qed.

(** X18. [printBoard] writes one line for each row, the cells as digits separated
    by single spaces, and then the separator line. The text determines the
    board: two boards that print the same are the same board. A well-formed
    board prints [ROWS] lines of [2 * COLS - 1] characters before the
    separator. *)
Theorem printBoard_determines_board :
  (forall board board', printBoard board = printBoard board' -> board = board') /\
  (forall board,
      wf_board board ->
      length (printBoard board) = S (Z.to_nat ROWS) /\
      forall n line, (n < Z.to_nat ROWS)%nat ->
                     nth_error (printBoard board) n = Some line ->
                     String.length line = Z.to_nat (2 * COLS - 1)).
Proof.
  split.
  - intros board board' H; unfold printBoard in H.
    apply app_inj_tail in H as [H _].
    apply (map_inj_list _ _ _ joinDigits_inj H).
  - intros board [Hlen Hrows]; unfold printBoard; split.
    + rewrite length_app, length_map, Hlen; cbn [length]; lia.
    + intros n line Hn Hline.
      rewrite nth_error_app1 in Hline by (now rewrite length_map, Hlen).
      rewrite nth_error_map in Hline.
      destruct (nth_error board n) as [cells|] eqn:Hcells; [|discriminate].
      injection Hline as <-.
      apply nth_error_In in Hcells; rewrite Forall_forall in Hrows.
      specialize (Hrows cells Hcells).
      destruct cells as [|c1 [|c2 [|c3 [|c4 [|c5 [|c6 [|c7 [|c8 cells]]]]]]]];
        try discriminate.
      now destruct c1, c2, c3, c4, c5, c6, c7.
Qed.

Lemma printBoard_determines_board_witness :
  wf_board lateBoard /\
  length (printBoard lateBoard) = S (Z.to_nat ROWS) /\
  forall n line, (n < Z.to_nat ROWS)%nat ->
                 nth_error (printBoard lateBoard) n = Some line ->
                 String.length line = Z.to_nat (2 * COLS - 1).
Proof.
  assert (Hwf : wf_board lateBoard) by (split; [reflexivity|repeat constructor]).
  split; [exact Hwf|].
  exact (proj2 printBoard_determines_board lateBoard Hwf).
Defined.

(** ** A turn with a legal column *)

(** X19. A turn of [playGame] on a well-formed board with a column of the
    grid that has an [EMPTY] cell. The human's piece goes to the lowest
    [EMPTY] cell of the column. If that completes a four-in-a-row the game
    closes with the human's win, even when the piece also fills the board: the
    win is tested before the draw. If not and the board is full, the game
    closes as a draw. Otherwise the machine's piece goes to the lowest [EMPTY]
    cell of a column of the grid, and the game closes exactly when that
    completes a four-in-a-row of the machine or fills the board. *)
Theorem playGame_legal_turn :
  forall env board column,
    wf_board board -> 0 <= column < COLS ->
    columnHasEmpty board column = true ->
    exists row,
      lowestEmpty board column (downfrom ROWS) = Some row /\
      let b1 := setCell board row column PLAYER in
      if cell_is (checkWin b1 PLAYER) PLAYER then
        playGame env (Some column) board
        = Normal (b1, [PrintBoard b1; Say YouWon], Closed)
      else if isBoardFull b1 then
        playGame env (Some column) board
        = Normal (b1, [PrintBoard b1; Say Draw], Closed)
      else
        exists move row',
          0 <= move < COLS /\
          lowestEmpty b1 move (downfrom ROWS) = Some row' /\
          let b2 := setCell b1 row' move OPPONENT in
          playGame env (Some column) board
          = Normal (b2,
                    [PrintBoard b1; Say (OpponentPlays (Some move)); PrintBoard b2]
                      ++ (if cell_is (checkWin b2 OPPONENT) OPPONENT
                          then [Say OpponentWins]
                          else if isBoardFull b2 then [Say Draw] else []),
                    if cell_is (checkWin b2 OPPONENT) OPPONENT || isBoardFull b2
                    then Closed else Prompt).
Proof.
  intros env board column Hwf [Hlo Hhi] Hlegal.
  destruct (lowestEmpty_place board column PLAYER (downfrom ROWS)
              (columnHasEmpty_row _ _ Hlegal)) as (row & Hlow & _ & _ & Hplace).
  fold (placePiece column PLAYER board) in Hplace.
  exists row; split; [exact Hlow|]; cbv zeta.
  unfold playGame.
  replace ((column >=? 0) && (column <? COLS)) with true
    by (symmetry; apply andb_true_iff; split; [apply Z.geb_le|apply Z.ltb_lt]; lia).
  rewrite Hplace; unfold afterHumanPiece.
  pose proof (wf_setCell board row column PLAYER Hwf) as Hwf1.
  generalize dependent (setCell board row column PLAYER); intros b1 _ Hwf1.
  destruct (cell_is (checkWin b1 PLAYER) PLAYER); [reflexivity|].
  destruct (isBoardFull b1) eqn:Hfull; [reflexivity|].
  destruct (not_full_has_empty b1 Hwf1 Hfull) as (c & Hc & Hcell).
  destruct (bestMove_hard_legal env b1 None Hwf1) as (move & Hbest & Hmove & Hml).
  { exists c; split; [assumption|].
    apply (columnHasEmpty_true b1 c 0); [unfold ROWS; lia|assumption]. }
  { discriminate. }
  destruct (lowestEmpty_place b1 move OPPONENT (downfrom ROWS)
              (columnHasEmpty_row _ _ Hml)) as (row' & Hlow' & _ & _ & Hplace').
  fold (placePiece move OPPONENT b1) in Hplace'.
  exists move, row'.
  split; [exact Hmove|split; [exact Hlow'|]].
  rewrite Hbest, Hplace'; cbv zeta.
  generalize (setCell b1 row' move OPPONENT); intros b2.
  destruct (cell_is (checkWin b2 OPPONENT) OPPONENT); [reflexivity|].
  destruct (isBoardFull b2); reflexivity.
Qed.

Lemma playGame_legal_turn_witness :
  wf_board lateBoard /\ 0 <= 6 < COLS /\ columnHasEmpty lateBoard 6 = true /\
  exists row,
    lowestEmpty lateBoard 6 (downfrom ROWS) = Some row /\
    let b1 := setCell lateBoard row 6 PLAYER in
    if cell_is (checkWin b1 PLAYER) PLAYER then
      playGame (asWritten 0 0) (Some 6) lateBoard
      = Normal (b1, [PrintBoard b1; Say YouWon], Closed)
    else if isBoardFull b1 then
      playGame (asWritten 0 0) (Some 6) lateBoard
      = Normal (b1, [PrintBoard b1; Say Draw], Closed)
    else
      exists move row',
        0 <= move < COLS /\
        lowestEmpty b1 move (downfrom ROWS) = Some row' /\
        let b2 := setCell b1 row' move OPPONENT in
        playGame (asWritten 0 0) (Some 6) lateBoard
        = Normal (b2,
                  [PrintBoard b1; Say (OpponentPlays (Some move)); PrintBoard b2]
                    ++ (if cell_is (checkWin b2 OPPONENT) OPPONENT
                        then [Say OpponentWins]
                        else if isBoardFull b2 then [Say Draw] else []),
                  if cell_is (checkWin b2 OPPONENT) OPPONENT || isBoardFull b2
                  then Closed else Prompt).
Proof.
  assert (Hwf : wf_board lateBoard) by (split; [reflexivity|repeat constructor]).
  assert (Hcol : 0 <= 6 < COLS) by (unfold COLS; lia).
  split; [exact Hwf|split; [exact Hcol|split; [reflexivity|]]].
  exact (playGame_legal_turn (asWritten 0 0) lateBoard 6 Hwf Hcol eq_refl).
Defined.
